(** * subsynchronizer: filename matching, batch orchestration and SRT stripping

  A shallow embedding of [subsbatch.py] and [subsynch.py].

  Modelling conventions.
  - A Python [str] is a list of code points.  The development covers the
    code points below 256, represented by [ascii]; on that range
    [str.lower] acts character by character and the whitespace and digit
    classes are the finite tables given in [PyStr].
  - A Python [float] is a binary64 number, [PrimFloat.float].
  - Console output ([print]) is not part of the model.
  - The file system and the external programs are an abstract
    environment: the code only observes it through the operations the
    sections below take as variables.  Running a command always answers an
    exit code with the captured output; a program that cannot be started is
    not part of the model.
  - [pathlib] is the pure POSIX flavour, with [suffix] and [stem] cut at the
    last dot of the name.
  - [difflib.SequenceMatcher(None, a, b).ratio()] is a variable of the
    matcher. *)

From Stdlib Require Import List Bool Arith ZArith Lia Ascii String.
From Stdlib Require Import Permutation.
From Stdlib Require Import DecimalString.
From Stdlib Require Import Floats Uint63.
From Equations Require Import Equations.
Import ListNotations.

Set Warnings "-inexact-float".


(** ** Python strings *)

Definition str := list ascii.

(** A string literal as a Python string. *)
Definition py (s : string) : str := list_ascii_of_string s.

Module PyStr.

Definition code (c : ascii) : N := N_of_ascii c.

Definition between (lo hi : N) (c : ascii) : bool :=
  (lo <=? code c)%N && (code c <=? hi)%N.

(** [str.isspace] on one character: TAB..CR, FS..US, SPACE, NEL, NBSP. *)
Definition isspace (c : ascii) : bool :=
  between 9 13 c || between 28 32 c || (code c =? 133)%N || (code c =? 160)%N.

(** [str.isdigit] on one character: 0-9 and the superscripts 1, 2, 3. *)
Definition isdigit_char (c : ascii) : bool :=
  between 48 57 c || (code c =? 178)%N || (code c =? 179)%N || (code c =? 185)%N.

(** [str.isdigit]: true when every character is a digit and there is one. *)
Definition isdigit (s : str) : bool :=
  match s with
  | [] => false
  | _ => forallb isdigit_char s
  end.

(** [str.lower] on one character: A-Z and the Latin-1 capitals except
    the multiplication sign move up by 32. *)
Definition lower_char (c : ascii) : ascii :=
  if between 65 90 c || (between 192 222 c && negb (code c =? 215)%N)
  then ascii_of_N (code c + 32)
  else c.

Definition lower (s : str) : str := map lower_char s.

(** [s.replace(old, new)] for one-character [old] and [new]. *)
Definition replace (old new : ascii) (s : str) : str :=
  map (fun c => if Ascii.eqb c old then new else c) s.

(** [s.split()]: the maximal runs of non-whitespace characters.  [word]
    is the run being read. *)
Fixpoint split_from (word : str) (s : str) : list str :=
  match s with
  | [] => match word with [] => [] | _ => [word] end
  | c :: s' =>
      if isspace c
      then match word with
           | [] => split_from [] s'
           | _ => word :: split_from [] s'
           end
      else split_from (word ++ [c]) s'
  end.

Definition split (s : str) : list str := split_from [] s.

(** [sep.join(parts)] *)
Fixpoint join (sep : str) (parts : list str) : str :=
  match parts with
  | [] => []
  | [w] => w
  | w :: rest => w ++ sep ++ join sep rest
  end.

Fixpoint lstrip (s : str) : str :=
  match s with
  | [] => []
  | c :: s' => if isspace c then lstrip s' else s
  end.

Definition rstrip (s : str) : str := rev (lstrip (rev s)).

(** [s.strip()] *)
Definition strip (s : str) : str := rstrip (lstrip s).

(** [s.rfind(c)] for a one-character [c]; [-1] when absent. *)
Fixpoint rfind_from (c : ascii) (i : Z) (found : Z) (s : str) : Z :=
  match s with
  | [] => found
  | x :: s' => rfind_from c (i + 1) (if Ascii.eqb x c then i else found) s'
  end.

Definition rfind (c : ascii) (s : str) : Z := rfind_from c 0 (-1) s.

Definition len (s : str) : Z := Z.of_nat (List.length s).

Definition str_eqb (a b : str) : bool :=
  if list_eq_dec ascii_dec a b then true else false.

End PyStr.

(** ** subsbatch.py: the filename normaliser *)

Module Normalize.
Import PyStr.

Definition separators : list ascii :=
  ["_"; "."; "-"; "("; ")"; "["; "]"]%char.

(** [normalize_stem], lines 54-58. *)
Definition normalize_stem (stem : str) : str :=
  let t := lower stem in
  let t := fold_left (fun t ch => replace ch " "%char t) separators t in
  strip (join [" "%char] (split t)).

(** The normaliser as the specification words it: lowercase, separators
    turned into spaces, every run of whitespace collapsed to one space,
    whitespace at both ends removed. *)
Definition is_separator (c : ascii) : bool :=
  existsb (Ascii.eqb c) separators.

Definition separator_to_space (c : ascii) : ascii :=
  if is_separator c then " "%char else c.

(** [in_run] tells that the previous character was whitespace. *)
Fixpoint collapse_runs (in_run : bool) (s : str) : str :=
  match s with
  | [] => []
  | c :: s' =>
      if isspace c
      then if in_run then collapse_runs true s'
           else " "%char :: collapse_runs true s'
      else c :: collapse_runs false s'
  end.

Definition normalize_spec (stem : str) : str :=
  strip (collapse_runs false (map separator_to_space (lower stem))).

End Normalize.

(** ** Exceptions *)

Inductive exn : Type :=
| ValueError
| ZeroDivisionError
| OSError
| RuntimeError (msg : str).

(** A computation that returns or raises. *)
Inductive result (A : Type) : Type :=
| Ok (a : A)
| Raise (e : exn).

Arguments Ok {A} a.
Arguments Raise {A} e.

Definition bind {A B : Type} (r : result A) (k : A -> result B) : result B :=
  match r with
  | Ok a => k a
  | Raise e => Raise e
  end.

Notation "x <- r ;; k" := (bind r (fun x => k))
  (at level 61, r at next level, right associativity).

(** ** pathlib: pure POSIX paths *)

Module Pathlib.
Import PyStr.

(** A path is its anchor ([""] or ["/"]) and its name components. *)
Record Path : Type := mkPath { root : str; names : list str }.

Definition path_eq_dec (p q : Path) : {p = q} + {p <> q}.
Proof. repeat decide equality. Defined.

Definition path_eqb (p q : Path) : bool :=
  if path_eq_dec p q then true else false.

(** [p.name]: the last component, empty for an anchor or the empty path. *)
Definition name (p : Path) : str := last (names p) [].

(** [p.parent] *)
Definition parent (p : Path) : Path := mkPath (root p) (removelast (names p)).

(** The index at which the suffix of [name] starts, when it has one:
    [i = name.rfind('.')] with [0 < i < len(name) - 1]. *)
Definition suffix_index (name : str) : option nat :=
  let i := rfind "."%char name in
  if (0 <? i)%Z && (i <? len name - 1)%Z then Some (Z.to_nat i) else None.

(** [p.suffix] *)
Definition suffix (p : Path) : str :=
  match suffix_index (name p) with
  | Some i => skipn i (name p)
  | None => []
  end.

(** [p.stem] *)
Definition stem (p : Path) : str :=
  match suffix_index (name p) with
  | Some i => firstn i (name p)
  | None => name p
  end.

Definition startswith_dot (s : str) : bool :=
  match s with
  | c :: _ => Ascii.eqb c "."%char
  | [] => false
  end.

(** [p.with_suffix(suffix)] *)
Definition with_suffix (p : Path) (suffix' : str) : result Path :=
  if existsb (Ascii.eqb "/"%char) suffix' then Raise ValueError
  else if (negb (str_eqb suffix' []) && negb (startswith_dot suffix'))
          || str_eqb suffix' ["."%char]
  then Raise ValueError
  else
    let name := name p in
    if str_eqb name [] then Raise ValueError
    else
      let old_suffix := suffix p in
      let name' :=
        if str_eqb old_suffix [] then name ++ suffix'
        else firstn (List.length name - List.length old_suffix) name ++ suffix' in
      Ok (mkPath (root p) (removelast (names p) ++ [name'])).

(** [str(p)] *)
Definition path_str (p : Path) : str :=
  match root p, names p with
  | [], [] => ["."%char]
  | r, ns => r ++ join ["/"%char] ns
  end.

End Pathlib.

(** ** subsbatch.py: the matcher *)

Module Matcher.
Import PyStr Pathlib Normalize.

Definition THRESHOLD : float := 0.55%float.

(** [float(n)] for a Python int [n]; exact below [2^53]. *)
Definition float_of_int (n : Z) : float := PrimFloat.of_uint63 (Uint63.of_Z n).

(** [a / b] on Python ints. *)
Definition truediv (a b : Z) : result float :=
  if (b =? 0)%Z then Raise ZeroDivisionError
  else Ok (float_of_int a / float_of_int b)%float.

Section WithRatio.

(** [SequenceMatcher(None, a, b).ratio()] of difflib. *)
Variable ratio : str -> str -> float.

(** Lines 45-48: the combined score of the candidate stem [ms] against the
    subtitle stem [s], both normalised. *)
Definition combined_score (s ms : str) : result float :=
  let ratio := ratio s ms in
  q <- truediv (Z.abs (len s - len ms)) (Z.max (Z.max (len s) (len ms)) 1) ;;
  let length_bias := (1 - q * 0.1)%float in
  Ok (ratio * length_bias)%float.

(** Lines 44-51: the loop over [media_files], threading [best] and
    [best_score]. *)
Fixpoint scan (s : str) (media_files : list Path)
    (best : option Path) (best_score : float) : result (option Path * float) :=
  match media_files with
  | [] => Ok (best, best_score)
  | m :: rest =>
      let ms := normalize_stem (stem m) in
      score <- combined_score s ms ;;
      if (best_score <? score)%float
      then scan s rest (Some m) score
      else scan s rest best best_score
  end.

(** [best_media_match], lines 39-52. *)
Definition best_media_match (for_sub : Path) (media_files : list Path)
    : result (option Path) :=
  let s := normalize_stem (stem for_sub) in
  r <- scan s media_files None (-1)%float ;;
  let '(best, best_score) := r in
  Ok match best with
     | Some b => if (THRESHOLD <=? best_score)%float then Some b else None
     | None => None
     end.

End WithRatio.

(** The combined score as the specification gives it:
    [ratio * (1 - 0.1 * (|len a - len b| / max(len a, len b, 1)))]. *)
Definition score_spec (ratio : str -> str -> float) (a b : str) : float :=
  (ratio a b *
   (1 - 0.1 * (float_of_int (Z.abs (len a - len b)) /
               float_of_int (Z.max (Z.max (len a) (len b)) 1))))%float.

End Matcher.

(** ** re: the fragment of regular expressions the program uses *)

Module Re.
Import PyStr.

(** A pattern is a sequence of nodes: a literal character, a repeated
    character class [cls{lo,hi}] (greedy or lazy), [^] and [$]. *)
Inductive node : Type :=
| Lit (c : ascii)
| Rep (greedy : bool) (lo : nat) (hi : option nat) (cls : ascii -> bool)
| Bol
| Eol.

Definition regex := list node.

Definition orelse {A : Type} (a b : option A) : option A :=
  match a with
  | Some _ => a
  | None => b
  end.

Definition room (hi : option nat) : bool :=
  match hi with
  | Some 0 => false
  | _ => true
  end.

(** The backtracking search through a repetition: [k] is the rest of the
    pattern, [bol] tells that nothing has been consumed since the start of the
    string.  The answer is the text left after the first match in priority
    order. *)
Fixpoint rep (greedy : bool) (cls : ascii -> bool) (k : bool -> str -> option str)
    (lo : nat) (hi : option nat) (bol : bool) (s : str) {struct s} : option str :=
  let stop := match lo with 0 => k bol s | _ => None end in
  let more :=
    match s with
    | c :: s' =>
        if cls c && room hi
        then rep greedy cls k (Nat.pred lo) (option_map Nat.pred hi) false s'
        else None
    | [] => None
    end in
  if greedy then orelse more stop else orelse stop more.

(** [$]: at the end of the string, or just before a final newline. *)
Definition at_end (s : str) : bool :=
  match s with
  | [] => true
  | [c] => Ascii.eqb c "010"%char
  | _ => false
  end.

Fixpoint exec (r : regex) (bol : bool) (s : str) {struct r} : option str :=
  match r with
  | [] => Some s
  | Lit c :: r' =>
      match s with
      | x :: s' => if Ascii.eqb x c then exec r' false s' else None
      | [] => None
      end
  | Rep greedy lo hi cls :: r' => rep greedy cls (exec r') lo hi bol s
  | Bol :: r' => if bol then exec r' bol s else None
  | Eol :: r' => if at_end s then exec r' bol s else None
  end.

(** [pattern.match(s)] as a truth value. *)
Definition matches (r : regex) (s : str) : bool :=
  match exec r true s with
  | Some _ => true
  | None => false
  end.

(** [re.sub(pattern, "", s)]: [skip] counts the characters of the current
    match still to drop. *)
Fixpoint sub_from (r : regex) (skip : nat) (bol : bool) (s : str) : str :=
  match s with
  | [] => []
  | c :: s' =>
      match skip with
      | S n => sub_from r n false s'
      | 0 =>
          match exec r bol s with
          | Some rest =>
              match List.length s - List.length rest with
              | S n => sub_from r n false s'
              | 0 => c :: sub_from r 0 false s'
              end
          | None => c :: sub_from r 0 false s'
          end
      end
  end.

Definition sub (r : regex) (s : str) : str := sub_from r 0 true s.

(** Character classes. *)
Definition digit (c : ascii) : bool := between 48 57 c.          (* \d *)
Definition space (c : ascii) : bool := isspace c.                (* \s *)
Definition other_than (x : ascii) (c : ascii) : bool := negb (Ascii.eqb c x).
Definition dot (c : ascii) : bool := other_than "010"%char c.    (* . *)

Definition exactly (n : nat) (cls : ascii -> bool) : node := Rep true n (Some n) cls.
Definition plus (cls : ascii -> bool) : node := Rep true 1 None cls.
Definition optional (c : ascii) : node := Rep true 0 (Some 1) (Ascii.eqb c).
Definition lazy_star (cls : ascii -> bool) : node := Rep false 0 None cls.

End Re.

(** ** subsynch.py: stripping an SRT file to plain text *)

Module Plaintext.
Import PyStr Re.

Definition LF : ascii := "010"%char.
Definition CR : ascii := "013"%char.

(** Text mode with universal newlines: CR LF and CR are read as LF. *)
Fixpoint universal_newlines (s : str) : str :=
  match s with
  | [] => []
  | c :: s' =>
      if Ascii.eqb c CR
      then match s' with
           | c' :: s'' =>
               if Ascii.eqb c' LF then LF :: universal_newlines s''
               else LF :: universal_newlines s'
           | [] => [LF]
           end
      else c :: universal_newlines s'
  end.

(** The lines a text file iterates over, each with its newline. *)
Fixpoint lines_from (cur : str) (s : str) : list str :=
  match s with
  | [] => match cur with [] => [] | _ => [cur] end
  | c :: s' =>
      if Ascii.eqb c LF then (cur ++ [c]) :: lines_from [] s'
      else lines_from (cur ++ [c]) s'
  end.

Definition file_lines (text : str) : list str :=
  lines_from [] (universal_newlines text).

(** [^\d{2}:\d{2}:\d{2},\d{3}\s+-->\s+\d{2}:\d{2}:\d{2},\d{3}$] *)
Definition clock_re : regex :=
  [exactly 2 digit; Lit ":"; exactly 2 digit; Lit ":"; exactly 2 digit; Lit ",";
   exactly 3 digit]%char.

Definition patt_ts : regex :=
  [Bol] ++ clock_re ++ [plus space; Lit "-"; Lit "-"; Lit ">"; plus space]%char
        ++ clock_re ++ [Eol].

(** [</?[^>]+>] *)
Definition tag_re : regex :=
  [Lit "<"; optional "/"; plus (other_than ">"); Lit ">"]%char.

(** [\{\\.*?\}] *)
Definition brace_re : regex :=
  [Lit "{"; Lit "\"; lazy_star dot; Lit "}"]%char.

(** Lines 62-68: the loop over the raw lines, appending to [lines]. *)
Fixpoint collect (raws : list str) (lines : list str) : list str :=
  match raws with
  | [] => lines
  | raw :: rest =>
      let line := strip raw in
      if str_eqb line [] || isdigit line || matches patt_ts line
      then collect rest lines
      else
        let line := sub tag_re line in
        let line := sub brace_re line in
        collect rest (lines ++ [line])
  end.

(** What [srt_to_plaintext] writes for a file whose decoded content is
    [text], lines 59-70. *)
Definition plaintext (text : str) : str :=
  let lines := collect (file_lines text) [] in
  join [LF] lines ++ [LF].

End Plaintext.

(** ** The stripped text as the specification words it *)

Module PlaintextSpec.
Import PyStr Plaintext.

Definition decimal (c : ascii) : bool := between 48 57 c.

(** A numeric index line: digits and nothing else. *)
Definition is_index_line (l : str) : bool :=
  negb (str_eqb l []) && forallb isdigit_char l.

(** [HH:MM:SS,mmm] at the head of [s]; the answer is the text behind it. *)
Definition clock (s : str) : option str :=
  match s with
  | h1 :: h2 :: c1 :: m1 :: m2 :: c2 :: s1 :: s2 :: c3 :: f1 :: f2 :: f3 :: rest =>
      if forallb decimal [h1; h2; m1; m2; s1; s2; f1; f2; f3]
         && Ascii.eqb c1 ":" && Ascii.eqb c2 ":" && Ascii.eqb c3 ","
      then Some rest else None
  | _ => None
  end.

(** One or more whitespace characters. *)
Definition gap (s : str) : option str :=
  match s with
  | c :: s' => if isspace c then Some (lstrip s') else None
  | [] => None
  end.

Definition arrow (s : str) : option str :=
  match s with
  | a :: b :: c :: rest =>
      if Ascii.eqb a "-" && Ascii.eqb b "-" && Ascii.eqb c ">" then Some rest else None
  | _ => None
  end.

Definition and_then (r : option str) (f : str -> option str) : option str :=
  match r with
  | Some s => f s
  | None => None
  end.

(** The text behind a leading [HH:MM:SS,mmm --> HH:MM:SS,mmm]. *)
Definition timestamp_range (l : str) : option str :=
  and_then (and_then (and_then (and_then (clock l) gap) arrow) gap) clock.

(** A timestamp-range line: the range and nothing else. *)
Definition is_timestamp_line (l : str) : bool :=
  match timestamp_range l with
  | Some [] => true
  | _ => false
  end.

(** A spoken line: not blank, not an index, not a timestamp range. *)
Definition is_spoken (l : str) : bool :=
  negb (str_eqb l []) && negb (is_index_line l) && negb (is_timestamp_line l).

(** The text behind the first [x] of [s]. *)
Fixpoint after (x : ascii) (s : str) : option str :=
  match s with
  | [] => None
  | c :: s' => if Ascii.eqb c x then Some s' else after x s'
  end.

(** An inline tag at the head of [s]: [<], one or more characters other
    than [>], and [>]; the answer is the text behind it. *)
Definition tag_at (s : str) : option str :=
  match s with
  | o :: c :: s' =>
      if Ascii.eqb o "<" && negb (Ascii.eqb c ">") then after ">" s' else None
  | _ => None
  end.

(** The text behind the first closing brace of [s], when no line feed
    comes before it. *)
Fixpoint brace_close (s : str) : option str :=
  match s with
  | [] => None
  | c :: s' =>
      if Ascii.eqb c "}" then Some s'
      else if Ascii.eqb c LF then None
      else brace_close s'
  end.

(** A brace block at the head of [s]: an opening brace, a backslash, and
    everything up to the first closing brace. *)
Definition brace_at (s : str) : option str :=
  match s with
  | o :: b :: s' =>
      if Ascii.eqb o "{" && Ascii.eqb b "\" then brace_close s' else None
  | _ => None
  end.

Definition inspect {A : Type} (a : A) : {b : A | a = b} := exist _ a eq_refl.

Section DeleteAll.

(** [block_at s] recognises a block at the head of [s] and answers the
    text behind it. *)
Variable block_at : str -> option str.
Hypothesis block_at_shorter :
  forall s r, block_at s = Some r -> List.length r < List.length s.

(** Delete the blocks found from left to right. *)
Equations? delete_all (s : str) : str by wf (List.length s) lt :=
  delete_all [] := [];
  delete_all (c :: s') with inspect (block_at (c :: s')) := {
    | exist _ (Some rest) E => delete_all rest;
    | exist _ None _ => c :: delete_all s' }.
Proof.
  exact (block_at_shorter _ _ E).
Qed.

End DeleteAll.

Lemma after_shorter (x : ascii) (s r : str) :
  after x s = Some r -> List.length r < S (List.length s).
Proof.
  revert r; induction s as [|c s IH]; intros r; cbn [after]; [discriminate|].
  destruct (Ascii.eqb c x).
  - intros [= <-]. cbn [List.length]. lia.
  - intros H. apply IH in H. cbn [List.length]. lia.
Qed.

Lemma tag_at_shorter (s r : str) :
  tag_at s = Some r -> List.length r < List.length s.
Proof.
  destruct s as [|o [|c s']]; cbn [tag_at]; try discriminate.
  destruct (Ascii.eqb o "<" && negb (Ascii.eqb c ">")); [|discriminate].
  intros H. apply after_shorter in H. cbn [List.length]. lia.
Qed.

Lemma brace_close_shorter (s r : str) :
  brace_close s = Some r -> List.length r < S (List.length s).
Proof.
  revert r; induction s as [|c s IH]; intros r; cbn [brace_close]; [discriminate|].
  destruct (Ascii.eqb c "}").
  - intros [= <-]. cbn [List.length]. lia.
  - destruct (Ascii.eqb c LF); [discriminate|].
    intros H. apply IH in H. cbn [List.length]. lia.
Qed.

Lemma brace_at_shorter (s r : str) :
  brace_at s = Some r -> List.length r < List.length s.
Proof.
  destruct s as [|o [|b s']]; cbn [brace_at]; try discriminate.
  destruct (Ascii.eqb o "{" && Ascii.eqb b "\"); [|discriminate].
  intros H. apply brace_close_shorter in H. cbn [List.length]. lia.
Qed.

Definition drop_tags (l : str) : str := delete_all tag_at tag_at_shorter l.

Definition drop_braces (l : str) : str := delete_all brace_at brace_at_shorter l.

(** The spoken lines of the file, stripped and with the markup deleted,
    in the order of the file. *)
Definition spoken_lines (text : str) : list str :=
  map (fun l => drop_braces (drop_tags l))
      (filter is_spoken (map strip (file_lines text))).

(** The lines joined by line feeds, with the line feed the program puts
    after the last one. *)
Definition plaintext_spec (text : str) : str :=
  join [LF] (spoken_lines text) ++ [LF].

End PlaintextSpec.

(** ** subsbatch.py: the batch run *)

Module Batch.
Import PyStr Pathlib Matcher.

(** The flags of the "BEHAVIOR" block; the program ships both as [False]. *)
Record Behavior : Type := { RECURSIVE : bool; OVERWRITE : bool }.

Definition shipped : Behavior := {| RECURSIVE := false; OVERWRITE := false |}.

Definition MEDIA_EXTS : list str :=
  map py [".mp4"; ".mkv"; ".mov"; ".avi"; ".mpg"; ".mpeg";
          ".mp3"; ".m4a"; ".aac"; ".flac"; ".wav"; ".ogg"]%string.

Definition SUB_EXTS : list str := [py ".srt"].

(** [p.suffix.lower() in exts] *)
Definition suffix_in (exts : list str) (p : Path) : bool :=
  existsb (str_eqb (lower (suffix p))) exts.

(** [str(n)] for an int. *)
Definition str_of_int (n : Z) : str := py (NilZero.string_of_int (Z.to_int n)).

(** [dict[Path, list[Path]]] *)
Definition dict := list (Path * list Path).

(** [d.setdefault(k, []).append(v)] *)
Fixpoint setdefault_append (d : dict) (k v : Path) : dict :=
  match d with
  | [] => [(k, [v])]
  | (k', vs) :: d' =>
      if path_eqb k k' then (k', vs ++ [v]) :: d'
      else (k', vs) :: setdefault_append d' k v
  end.

(** [d.get(k, default)] *)
Fixpoint get (d : dict) (k : Path) (default : list Path) : list Path :=
  match d with
  | [] => default
  | (k', vs) :: d' => if path_eqb k k' then vs else get d' k default
  end.

Section Run.

Variable cfg : Behavior.
Variable ratio : str -> str -> float.

(** The environment: file-system states, [Path.exists], the two directory
    listings restricted to regular files, and what running a command does and
    answers (exit code, stdout, stderr). *)
Variable FS : Type.
Variable exists_ : FS -> Path -> bool.
Variable glob_files : FS -> Path -> list Path.
Variable rglob_files : FS -> Path -> list Path.
Variable spawn : list str -> FS -> (Z * str * str) * FS.

(** The state of a run: the file system, the commands run so far, and the
    three accumulators. *)
Record State : Type := mkState {
  fs : FS;
  calls : list (list str);
  synced : list (Path * Path);
  skipped : list (Path * str);
  failed : list (Path * str)
}.

(** [run], lines 34-37. *)
Definition run (cmd : list str) (st : State) : (Z * str * str) * State :=
  let '(answer, fs') := spawn cmd (fs st) in
  (answer, mkState fs' (calls st ++ [cmd]) (synced st) (skipped st) (failed st)).

(** [gather_files], lines 60-64. *)
Definition gather_files (st : State) (root : Path) : list Path :=
  if RECURSIVE cfg then rglob_files (fs st) root else glob_files (fs st) root.

(** Lines 84-87. *)
Definition group_media (all_files : list Path) : dict :=
  fold_left
    (fun d p => if suffix_in MEDIA_EXTS p then setdefault_append d (parent p) p else d)
    all_files [].

Definition fail (st : State) (srt : Path) (reason : str) : State :=
  mkState (fs st) (calls st) (synced st) (skipped st) (failed st ++ [(srt, reason)]).

Definition skip (st : State) (srt : Path) (reason : str) : State :=
  mkState (fs st) (calls st) (synced st) (skipped st ++ [(srt, reason)]) (failed st).

Definition sync (st : State) (srt m : Path) : State :=
  mkState (fs st) (calls st) (synced st ++ [(srt, m)]) (skipped st) (failed st).

(** The body of the loop, lines 98-131. *)
Definition process (media_by_dir : dict) (srt : Path) (st : State) : result State :=
  let candidates := get media_by_dir (parent srt) [] in
  match candidates with
  | [] => Ok (fail st srt (py "no media in folder"))
  | _ =>
      found <- best_media_match ratio srt candidates ;;
      match found with
      | None => Ok (fail st srt (py "no good match"))
      | Some m =>
          out_srt <- with_suffix m (py ".srt") ;;
          if exists_ (fs st) out_srt && negb (OVERWRITE cfg)
          then Ok (skip st srt (py "exists"))
          else
            let cmd := [py "ffsubsync"; path_str m; py "-i"; path_str srt;
                        py "-o"; path_str out_srt] in
            let '(code, out, err, st') := run cmd st in
            if (code =? 0)%Z then Ok (sync st' srt m)
            else Ok (fail st' srt (py "ffsubsync error (" ++ str_of_int code ++ py ")"))
      end
  end.

(** The loop, line 97. *)
Fixpoint process_all (media_by_dir : dict) (subs : list Path) (st : State)
    : result State :=
  match subs with
  | [] => Ok st
  | srt :: rest =>
      st' <- process media_by_dir srt st ;;
      process_all media_by_dir rest st'
  end.

(** How [main] ends: [sys.exit(code)] or the summary of a completed run. *)
Inductive Outcome : Type :=
| Exit (code : Z)
| Summary (st : State).

(** [main], lines 66-150: [have_ffsubsync] is the answer of
    [have("ffsubsync")], [folder] the folder picked in the dialog, if any. *)
Definition main (have_ffsubsync : bool) (folder : option Path) (fs0 : FS)
    : result Outcome :=
  if negb have_ffsubsync then Ok (Exit 1)
  else
    match folder with
    | None => Ok (Exit 0)
    | Some base =>
        let st := mkState fs0 [] [] [] [] in
        let all_files := gather_files st base in
        let subs := filter (suffix_in SUB_EXTS) all_files in
        let media_by_dir := group_media all_files in
        match subs with
        | [] => Ok (Exit 0)
        | _ =>
            st' <- process_all media_by_dir subs st ;;
            Ok (Summary st')
        end
    end.

End Run.

Arguments mkState {FS} fs calls synced skipped failed.
Arguments fs {FS} s.
Arguments calls {FS} s.
Arguments synced {FS} s.
Arguments skipped {FS} s.
Arguments failed {FS} s.
Arguments run {FS} spawn cmd st.
Arguments gather_files cfg {FS} glob_files rglob_files st root.
Arguments fail {FS} st srt reason.
Arguments skip {FS} st srt reason.
Arguments sync {FS} st srt m.
Arguments process cfg ratio {FS} exists_ spawn media_by_dir srt st.
Arguments process_all cfg ratio {FS} exists_ spawn media_by_dir subs st.
Arguments Exit {FS} code.
Arguments Summary {FS} st.
Arguments main cfg ratio {FS} exists_ glob_files rglob_files spawn have_ffsubsync folder fs0.

(** The command line of the aligner, line 120. *)
Definition ffsubsync_cmd (m srt out_srt : Path) : list str :=
  [py "ffsubsync"; path_str m; py "-i"; path_str srt; py "-o"; path_str out_srt].

End Batch.

(** ** subsynch.py: one media file and one subtitle *)

Module Single.
Import PyStr Pathlib Plaintext.

Section Run.

(** The environment: file-system states with reading and writing of text
    files, commands, [shutil.which], whether [import aeneas] succeeds, the
    interpreter's path and the temporary directory handed out. *)
Variable FS : Type.
Variable read_text : FS -> Path -> option str.
Variable write_text : Path -> str -> FS -> FS.
Variable spawn : list str -> FS -> (Z * str * str) * FS.
Variable which : str -> bool.
Variable aeneas_importable : bool.
Variable executable : str.
Variable mkdtemp : FS -> Path * FS.
Variable rmtree : Path -> FS -> FS.

Record World : Type := mkWorld { fs : FS; calls : list (list str) }.

(** [have], lines 11-13. *)
Definition have (cmd : str) : bool := which cmd.

(** [run], lines 15-18. *)
Definition run (cmd : list str) (w : World) : (Z * str * str) * World :=
  let '(answer, fs') := spawn cmd (fs w) in
  (answer, mkWorld fs' (calls w ++ [cmd])).

(** [td / name] *)
Definition child (td : Path) (name : str) : Path :=
  mkPath (root td) (names td ++ [name]).

(** The captured output as the error messages quote it. *)
Definition streams (out err : str) : str :=
  [LF] ++ py "--- STDOUT ---" ++ [LF] ++ out ++ [LF] ++ py "--- STDERR ---" ++ [LF] ++ err.

(** [align_with_ffsubsync], lines 45-53. *)
Definition align_with_ffsubsync (media subs out_srt : Path) (w : World)
    : result unit * World :=
  let cmd := [py "ffsubsync"; path_str media; py "-i"; path_str subs;
              py "-o"; path_str out_srt] in
  let '(code, out, err, w') := run cmd w in
  if negb (code =? 0)%Z
  then (Raise (RuntimeError (py "ffsubsync failed." ++ streams out err)), w')
  else (Ok tt, w').

(** [srt_to_plaintext], lines 58-71. *)
Definition srt_to_plaintext (srt_path out_txt : Path) (w : World)
    : result Path * World :=
  match read_text (fs w) srt_path with
  | None => (Raise OSError, w)
  | Some text =>
      (Ok out_txt, mkWorld (write_text out_txt (plaintext text) (fs w)) (calls w))
  end.

(** The body of the [with] block, lines 74-104. *)
Definition aeneas_steps (td media subs out_srt : Path) (w : World)
    : result unit * World :=
  match srt_to_plaintext subs (child td (py "text.txt")) w with
  | (Raise e, w1) => (Raise e, w1)
  | (Ok text, w1) =>
      if negb (have (py "ffmpeg")) || negb (have (py "ffprobe"))
      then (Raise (RuntimeError (py "aeneas fallback needs ffmpeg/ffprobe in PATH.")), w1)
      else
        let wav := child td (py "audio.wav") in
        let cmd := map py ["ffmpeg"; "-hide_banner"; "-nostdin"; "-y"; "-i"]%string
                   ++ [path_str media]
                   ++ map py ["-vn"; "-ac"; "1"; "-ar"; "16000"; "-c:a"; "pcm_s16le";
                              "-map_metadata"; "-1"; "-fflags"; "+bitexact";
                              "-flags"; "+bitexact"; "-f"; "wav"]%string
                   ++ [path_str wav] in
        let '(code, out, err, w2) := run cmd w1 in
        if negb (code =? 0)%Z
        then (Raise (RuntimeError (py "FFmpeg failed to prepare WAV." ++ [LF] ++ err)), w2)
        else
          let config := py "task_language=eng|is_text_type=plain|os_task_file_format=srt" in
          let rconf := py "ffmpeg_sample_rate=16000" in
          let cmd := [executable; py "-m"; py "aeneas.tools.execute_task"; py "-v";
                      path_str wav; path_str text; config; path_str out_srt;
                      py "-r"; rconf] in
          let '(code, out, err, w3) := run cmd w2 in
          if negb (code =? 0)%Z
          then (Raise (RuntimeError
                        (py "aeneas failed even in fallback path." ++ streams out err)), w3)
          else (Ok tt, w3)
  end.

(** [maybe_align_with_aeneas], lines 55-104: the temporary directory is
    removed however the block ends. *)
Definition maybe_align_with_aeneas (media subs out_srt : Path) (w : World)
    : result unit * World :=
  let '(td, fs1) := mkdtemp (fs w) in
  let '(r, w') := aeneas_steps td media subs out_srt (mkWorld fs1 (calls w)) in
  (r, mkWorld (rmtree td (fs w')) (calls w')).

(** How [main] ends. *)
Inductive Outcome : Type :=
| Cancelled
| Done (out_srt : Path)
| DoneAeneas (out_srt : Path)
| NoAligner
| FallbackFailed (e : exn).

(** The fallback half of [main], lines 122-130. *)
Definition fallback (media subs out_srt : Path) (w : World) : Outcome * World :=
  if aeneas_importable
  then match maybe_align_with_aeneas media subs out_srt w with
       | (Ok _, w') => (DoneAeneas out_srt, w')
       | (Raise e, w') => (FallbackFailed e, w')
       end
  else (NoAligner, w).

(** [main], lines 106-130, with the two answers of the file dialogs. *)
Definition main (picked_media picked_subs : option Path) (w : World)
    : result Outcome * World :=
  match picked_media, picked_subs with
  | None, _ => (Ok Cancelled, w)
  | Some _, None => (Ok Cancelled, w)
  | Some media, Some subs =>
      match with_suffix media (py ".srt") with
      | Raise e => (Raise e, w)
      | Ok out_srt =>
          if have (py "ffsubsync")
          then match align_with_ffsubsync media subs out_srt w with
               | (Ok _, w') => (Ok (Done out_srt), w')
               | (Raise _, w') =>
                   let '(o, w'') := fallback media subs out_srt w' in (Ok o, w'')
               end
          else let '(o, w') := fallback media subs out_srt w in (Ok o, w')
      end
  end.

End Run.

Arguments mkWorld {FS} fs calls.
Arguments fs {FS} w.
Arguments calls {FS} w.
Arguments run {FS} spawn cmd w.
Arguments align_with_ffsubsync {FS} spawn media subs out_srt w.
Arguments srt_to_plaintext {FS} read_text write_text srt_path out_txt w.
Arguments aeneas_steps {FS} read_text write_text spawn which executable td media subs out_srt w.
Arguments maybe_align_with_aeneas {FS} read_text write_text spawn which executable
  mkdtemp rmtree media subs out_srt w.
Arguments fallback {FS} read_text write_text spawn which aeneas_importable executable
  mkdtemp rmtree media subs out_srt w.
Arguments main {FS} read_text write_text spawn which aeneas_importable executable
  mkdtemp rmtree picked_media picked_subs w.

(** The three command lines, lines 46, 80-86 and 95-98. *)
Definition ffsubsync_cmd (media subs out_srt : Path) : list str :=
  [py "ffsubsync"; path_str media; py "-i"; path_str subs; py "-o"; path_str out_srt].

Definition ffmpeg_cmd (media wav : Path) : list str :=
  map py ["ffmpeg"; "-hide_banner"; "-nostdin"; "-y"; "-i"]%string
  ++ [path_str media]
  ++ map py ["-vn"; "-ac"; "1"; "-ar"; "16000"; "-c:a"; "pcm_s16le";
             "-map_metadata"; "-1"; "-fflags"; "+bitexact";
             "-flags"; "+bitexact"; "-f"; "wav"]%string
  ++ [path_str wav].

Definition aeneas_cmd (executable : str) (wav text out_srt : Path) : list str :=
  [executable; py "-m"; py "aeneas.tools.execute_task"; py "-v";
   path_str wav; path_str text;
   py "task_language=eng|is_text_type=plain|os_task_file_format=srt";
   path_str out_srt; py "-r"; py "ffmpeg_sample_rate=16000"].

End Single.

(** * Properties *)

(** ** Strings *)

Module PyStrFacts.
Import PyStr.

Definition nospace (w : str) : Prop := Forall (fun c => isspace c = false) w.

Lemma nospace_app (a b : str) : nospace a -> nospace b -> nospace (a ++ b).
Proof. intros Ha Hb; apply Forall_app; now split. Qed.

Lemma nospace_rev (w : str) : nospace w -> nospace (rev w).
Proof. intros H; now apply Forall_rev. Qed.

Lemma lstrip_nospace (w : str) : nospace w -> lstrip w = w.
Proof.
  destruct w as [|c w]; [reflexivity|].
  intros H; inversion H as [|? ? Hc _]; subst; simpl; now rewrite Hc.
Qed.

Lemma lstrip_app (x y : str) : lstrip x <> [] -> lstrip (x ++ y) = lstrip x ++ y.
Proof.
  induction x as [|c x IH]; simpl; [congruence|].
  destruct (isspace c); [exact IH | reflexivity].
Qed.

Lemma lstrip_idem (s : str) : lstrip (lstrip s) = lstrip s.
Proof.
  induction s as [|c s IH]; [reflexivity|]; simpl.
  destruct (isspace c) eqn:E; [exact IH | simpl; now rewrite E].
Qed.

Lemma rstrip_nospace (w : str) : nospace w -> rstrip w = w.
Proof.
  intros H; unfold rstrip.
  rewrite lstrip_nospace by now apply nospace_rev.
  apply rev_involutive.
Qed.

Lemma rstrip_app (a b : str) : rstrip b <> [] -> rstrip (a ++ b) = a ++ rstrip b.
Proof.
  unfold rstrip; intros H.
  rewrite rev_app_distr, lstrip_app, rev_app_distr, rev_involutive; [reflexivity|].
  intros E; apply H; now rewrite E.
Qed.

Lemma rstrip_snoc_space (s : str) (c : ascii) :
  isspace c = true -> rstrip (s ++ [c]) = rstrip s.
Proof.
  intros Hc; unfold rstrip; rewrite rev_app_distr; simpl; now rewrite Hc.
Qed.

Lemma lstrip_snoc_nonspace (l : str) (c : ascii) :
  isspace c = false -> lstrip (l ++ [c]) = lstrip l ++ [c].
Proof.
  intros Hc; induction l as [|x l IH]; simpl.
  - now rewrite Hc.
  - destruct (isspace x); [exact IH | reflexivity].
Qed.

Lemma rstrip_cons (c : ascii) (s : str) :
  isspace c = false -> rstrip (c :: s) = c :: rstrip s.
Proof.
  intros Hc; unfold rstrip; simpl.
  now rewrite lstrip_snoc_nonspace, rev_app_distr.
Qed.

Lemma rstrip_cons_nonempty (c : ascii) (s : str) :
  isspace c = false -> rstrip (c :: s) <> [].
Proof. intros Hc; rewrite rstrip_cons by assumption; discriminate. Qed.

Lemma rstrip_idem (s : str) : rstrip (rstrip s) = rstrip s.
Proof. unfold rstrip; now rewrite rev_involutive, lstrip_idem. Qed.

Lemma split_from_nonempty (w s : str) : w <> [] -> split_from w s <> [].
Proof.
  revert w; induction s as [|c s IH]; intros w Hw; simpl.
  - destruct w; congruence.
  - destruct (isspace c).
    + destruct w; congruence.
    + apply IH; destruct w; discriminate.
Qed.

Lemma join_cons (sep w : str) (rest : list str) :
  rest <> [] -> join sep (w :: rest) = w ++ sep ++ join sep rest.
Proof. destruct rest; [congruence | reflexivity]. Qed.

(** Every word produced by [split] is non-empty and free of whitespace. *)
Definition word (w : str) : Prop := w <> [] /\ nospace w.

Lemma split_from_words (s w : str) :
  nospace w -> Forall word (split_from w s).
Proof.
  revert w; induction s as [|c s IH]; intros w Hw; simpl.
  - destruct w; constructor; [split; [discriminate|assumption]|constructor].
  - destruct (isspace c) eqn:E.
    + destruct w; [apply IH; constructor|].
      constructor; [split; [discriminate|assumption] | apply IH; constructor].
    + apply IH, nospace_app; [assumption | repeat constructor; assumption].
Qed.

Lemma split_from_app_word (w v s : str) :
  nospace v -> split_from w (v ++ s) = split_from (w ++ v) s.
Proof.
  revert w; induction v as [|c v IH]; intros w Hv; simpl.
  - now rewrite app_nil_r.
  - inversion Hv as [|? ? Hc Hv']; subst. rewrite Hc, IH by assumption.
    now rewrite <- app_assoc.
Qed.

(** Splitting the join of a list of words gives the words back. *)
Lemma split_join (ws : list str) :
  Forall word ws -> split (join [" "%char] ws) = ws.
Proof.
  unfold split; induction ws as [|w ws IH]; intros H; [reflexivity|].
  inversion H as [|? ? [Hne Hw] Hws]; subst.
  destruct ws as [|w' ws].
  - pose proof (@split_from_app_word [] w [] Hw) as E.
    rewrite app_nil_r in E. simpl in *. rewrite E.
    destruct w; [congruence | reflexivity].
  - rewrite join_cons by discriminate.
    rewrite split_from_app_word by assumption. simpl app at 1.
    change ([" "%char] ++ ?x) with (" "%char :: x).
    cbn [split_from]. change (isspace " ") with true. cbn iota.
    rewrite (IH Hws). destruct w; [congruence | reflexivity].
Qed.

Lemma join_words_nonempty (ws : list str) :
  Forall word ws -> ws <> [] -> exists c t, join [" "%char] ws = c :: t /\ isspace c = false.
Proof.
  intros H Hne; destruct ws as [|w ws]; [congruence|].
  inversion H as [|? ? [Hw Hn] _]; subst.
  destruct w as [|c w]; [congruence|]. inversion Hn; subst.
  destruct ws; simpl; eauto.
Qed.

End PyStrFacts.

(** ** The filename normaliser *)

Module NormalizeFacts.
Import PyStr PyStrFacts Normalize.

Ltac each_char c :=
  destruct c as [[] [] [] [] [] [] [] []]; vm_compute; try reflexivity; try discriminate.

Lemma fold_replace_map (seps : list ascii) (t : str) :
  fold_left (fun t ch => replace ch " "%char t) seps t =
  map (fun c => fold_left (fun c ch => if Ascii.eqb c ch then " "%char else c) seps c) t.
Proof.
  revert t; induction seps as [|ch seps IH]; intros t; simpl.
  - now rewrite map_id.
  - rewrite IH; unfold replace; now rewrite map_map.
Qed.

Lemma replace_separators (t : str) :
  fold_left (fun t ch => replace ch " "%char t) separators t = map separator_to_space t.
Proof.
  rewrite fold_replace_map; apply map_ext; intros c; each_char c.
Qed.

Lemma collapse_true_nonspace (c : ascii) (s : str) :
  isspace c = false -> collapse_runs true (c :: s) = collapse_runs false (c :: s).
Proof. intros H; simpl; now rewrite H. Qed.

Lemma collapse_nospace (w s : str) (b : bool) :
  nospace w -> w <> [] -> collapse_runs b (w ++ s) = w ++ collapse_runs false s.
Proof.
  revert b; induction w as [|c w IH]; intros b Hw Hne; [congruence|].
  inversion Hw as [|? ? Hc Hw']; subst; simpl; rewrite Hc.
  destruct w as [|c' w]; [reflexivity|].
  f_equal; apply IH; [assumption | discriminate].
Qed.

(** The two readings of [" ".join(t.split())], after a word and after a
    gap. *)
Lemma join_split_collapse (s : str) :
  (forall w, w <> [] -> nospace w ->
     rstrip (w ++ collapse_runs false s) = join [" "%char] (split_from w s)) /\
  (forall p, p <> [] -> nospace p ->
     rstrip (p ++ " "%char :: collapse_runs true s) =
     join [" "%char] (p :: split_from [] s)).
Proof.
  induction s as [|c s [IHw IHg]]; split; intros w Hne Hw.
  - cbn [collapse_runs split_from]; rewrite app_nil_r, rstrip_nospace by assumption.
    destruct w; [congruence | reflexivity].
  - cbn [collapse_runs split_from join].
    rewrite rstrip_snoc_space by reflexivity. now apply rstrip_nospace.
  - cbn [collapse_runs split_from]; destruct (isspace c) eqn:E.
    + rewrite IHg by assumption. destruct w; [congruence | reflexivity].
    + replace (w ++ c :: collapse_runs false s) with ((w ++ [c]) ++ collapse_runs false s)
        by now rewrite <- app_assoc.
      apply IHw; [destruct w; discriminate|].
      apply nospace_app; [assumption | repeat constructor; assumption].
  - cbn [collapse_runs split_from]; destruct (isspace c) eqn:E.
    + now apply IHg.
    + rewrite join_cons by (apply split_from_nonempty; discriminate).
      change ([] ++ [c]) with [c].
      rewrite <- (IHw [c]) by (try discriminate; repeat constructor; assumption).
      change (w ++ " "%char :: c :: collapse_runs false s)
        with (w ++ [" "%char] ++ ([c] ++ collapse_runs false s)).
      assert (Hk : rstrip ([c] ++ collapse_runs false s) <> [])
        by now apply rstrip_cons_nonempty.
      assert (Hk' : rstrip ([" "%char] ++ [c] ++ collapse_runs false s) <> [])
        by (rewrite rstrip_app by exact Hk; discriminate).
      rewrite (rstrip_app w _ Hk'), (rstrip_app [" "%char] _ Hk). reflexivity.
Qed.

Lemma lstrip_collapse (s : str) :
  lstrip (collapse_runs false s) = collapse_runs false (lstrip s) /\
  lstrip (collapse_runs true s) = collapse_runs false (lstrip s).
Proof.
  induction s as [|c s [IH1 IH2]]; [split; reflexivity|].
  simpl; destruct (isspace c) eqn:E; simpl.
  - split; assumption.
  - rewrite E; split; reflexivity.
Qed.

Lemma split_lstrip (s : str) : split_from [] (lstrip s) = split_from [] s.
Proof.
  induction s as [|c s IH]; [reflexivity|]; simpl.
  destruct (isspace c) eqn:E; [exact IH | simpl; now rewrite E].
Qed.

Lemma lstrip_head (s : str) :
  lstrip s = [] \/ exists c t, lstrip s = c :: t /\ isspace c = false.
Proof.
  induction s as [|c s IH]; [now left|]; simpl.
  destruct (isspace c) eqn:E; [exact IH | right; eauto].
Qed.

(** [" ".join(t.split())] is [t] with its runs collapsed and both ends
    trimmed. *)
Lemma join_split_strip (t : str) :
  join [" "%char] (split t) = strip (collapse_runs false t).
Proof.
  unfold strip, split.
  rewrite (proj1 (lstrip_collapse t)), <- split_lstrip.
  destruct (lstrip_head t) as [E | (c & u & E & Hc)]; rewrite E; [reflexivity|].
  simpl; rewrite Hc.
  exact (eq_sym (proj1 (join_split_collapse u) [c] ltac:(discriminate)
                   ltac:(repeat constructor; assumption))).
Qed.

Lemma strip_idem (s : str) : strip (strip s) = strip s.
Proof.
  unfold strip.
  assert (H : lstrip (rstrip (lstrip s)) = rstrip (lstrip s)).
  { destruct (lstrip_head s) as [E | (c & u & E & Hc)]; rewrite E; [reflexivity|].
    rewrite rstrip_cons by assumption. simpl; now rewrite Hc. }
  now rewrite H, rstrip_idem.
Qed.

Lemma in_join (sep : str) (ws : list str) (c : ascii) :
  In c (join sep ws) -> In c sep \/ exists w, In w ws /\ In c w.
Proof.
  induction ws as [|w ws IH]; [intros []|].
  destruct ws as [|w' ws].
  - simpl; intros H; right; exists w; auto.
  - rewrite join_cons by discriminate. rewrite !in_app_iff.
    intros [H | [H | H]]; [right; exists w; simpl; auto | now left |].
    destruct (IH H) as [H' | (v & Hv & Hc)]; [now left|].
    right; exists v; split; [now right | assumption].
Qed.

Lemma in_split_from (s w0 w : str) (c : ascii) :
  In w (split_from w0 s) -> In c w -> In c w0 \/ In c s.
Proof.
  revert w0; induction s as [|x s IH]; intros w0; simpl.
  - destruct w0; [intros [] | intros [<- | []]; auto].
  - destruct (isspace x).
    + destruct w0.
      * intros H Hc; destruct (IH _ H Hc) as [[] | ?]; auto.
      * intros [<- | H] Hc; [auto|]. destruct (IH _ H Hc) as [[] | ?]; auto.
    + intros H Hc; destruct (IH _ H Hc) as [H' | ?]; [|auto].
      apply in_app_iff in H' as [? | [<- | []]]; auto.
Qed.

Definition clean_char (c : ascii) : ascii := separator_to_space (lower_char c).

Lemma clean_char_idem (c : ascii) : clean_char (clean_char c) = clean_char c.
Proof. each_char c. Qed.

Lemma normalize_stem_words (stem : str) :
  normalize_stem stem = join [" "%char] (split (map clean_char stem)).
Proof.
  unfold normalize_stem. rewrite replace_separators.
  unfold lower; rewrite map_map. fold clean_char.
  now rewrite join_split_strip, strip_idem.
Qed.

(** C7: the normaliser is the lowercase stem with the separators
    [_ . - ( ) [ ]] turned into spaces, runs of whitespace collapsed to single
    spaces and both ends trimmed; [My_Movie.2020[1080p]] becomes
    [my movie 2020 1080p]. *)
Theorem normalize_stem_refines_spec :
  (forall stem, normalize_stem stem = normalize_spec stem) /\
  normalize_stem (py "My_Movie.2020[1080p]") = py "my movie 2020 1080p".
Proof.
  split; [|reflexivity].
  intros stem; rewrite normalize_stem_words, join_split_strip.
  unfold normalize_spec, lower; now rewrite map_map.
Qed.

(** C8: normalising twice is the same as normalising once. *)
Theorem normalize_stem_idempotent (x : str) :
  normalize_stem (normalize_stem x) = normalize_stem x.
Proof.
  rewrite (normalize_stem_words (normalize_stem x)).
  assert (Hfix : map clean_char (normalize_stem x) = normalize_stem x).
  { rewrite <- (map_id (normalize_stem x)) at 2. apply map_ext_in; intros c Hc.
    rewrite normalize_stem_words in Hc.
    apply in_join in Hc as [[<- | []] | (w & Hw & Hc)]; [reflexivity|].
    destruct (in_split_from _ _ _ _ Hw Hc) as [[] | Hin].
    apply in_map_iff in Hin as (c0 & <- & _). apply clean_char_idem. }
  rewrite Hfix, normalize_stem_words.
  apply f_equal, split_join, split_from_words; constructor.
Qed.

End NormalizeFacts.

(** ** Order on binary64 numbers *)

Module FloatOrder.

Ltac cmp_split :=
  repeat match goal with
  | H : context [Pos.compare_cont Eq ?a ?b] |- _ =>
      change (Pos.compare_cont Eq a b) with (Pos.compare a b) in H
  | |- context [Pos.compare_cont Eq ?a ?b] =>
      change (Pos.compare_cont Eq a b) with (Pos.compare a b)
  end;
  repeat match goal with
  | H : context [Z.compare ?a ?b] |- _ => destruct (Z.compare_spec a b); subst
  | H : context [Pos.compare ?a ?b] |- _ => destruct (Pos.compare_spec a b); subst
  | |- context [Z.compare ?a ?b] => destruct (Z.compare_spec a b); subst
  | |- context [Pos.compare ?a ?b] => destruct (Pos.compare_spec a b); subst
  end; simpl in *; try congruence; try lia.

Ltac by_shape3 x y z :=
  destruct x as [[]|[]| |[] ? ?], y as [[]|[]| |[] ? ?], z as [[]|[]| |[] ? ?];
  simpl; try congruence; intros; cmp_split.

Ltac by_shape2 x y :=
  destruct x as [[]|[]| |[] ? ?], y as [[]|[]| |[] ? ?];
  simpl; try congruence; intros; cmp_split.

Lemma SFcompare_lt_trans x y z :
  SFcompare x y = Some Lt -> SFcompare y z = Some Lt -> SFcompare x z = Some Lt.
Proof. by_shape3 x y z. Qed.

Lemma SFcompare_lt_eq_trans x y z :
  SFcompare x y = Some Lt -> SFcompare y z = Some Eq -> SFcompare x z = Some Lt.
Proof. by_shape3 x y z. Qed.

Lemma SFcompare_eq_lt_trans x y z :
  SFcompare x y = Some Eq -> SFcompare y z = Some Lt -> SFcompare x z = Some Lt.
Proof. by_shape3 x y z. Qed.

Lemma SFcompare_eq_trans x y z :
  SFcompare x y = Some Eq -> SFcompare y z = Some Eq -> SFcompare x z = Some Eq.
Proof. by_shape3 x y z. Qed.

Lemma SFcompare_lt_gt x y : SFcompare x y = Some Lt -> SFcompare y x = Some Gt.
Proof. by_shape2 x y. Qed.

Lemma SFcompare_gt_lt x y : SFcompare x y = Some Gt -> SFcompare y x = Some Lt.
Proof. by_shape2 x y. Qed.

Lemma SFcompare_eq_sym x y : SFcompare x y = Some Eq -> SFcompare y x = Some Eq.
Proof. by_shape2 x y. Qed.

Lemma SFcompare_none x y :
  SFcompare x y = None -> SFcompare x x = None \/ SFcompare y y = None.
Proof. destruct x, y; simpl; try congruence; auto. Qed.

Lemma SFcompare_some_refl x y c :
  SFcompare x y = Some c -> SFcompare x x = Some Eq /\ SFcompare y y = Some Eq.
Proof. by_shape2 x y; split; cmp_split. Qed.

Lemma SFmul_comm x y : SF64mul x y = SF64mul y x.
Proof.
  destruct x as [sx|sx| |sx mx ex], y as [sy|sy| |sy my ey]; simpl;
    try reflexivity; try (now rewrite xorb_comm).
  unfold SF64mul, SFmul. now rewrite xorb_comm, Pos.mul_comm, Z.add_comm.
Qed.

Local Open Scope float_scope.

(** [x] is a number (not NaN). *)
Definition number (x : float) : Prop := (x <=? x) = true.

Ltac to_spec :=
  unfold number in *; rewrite ?FloatAxioms.ltb_spec, ?FloatAxioms.leb_spec, ?FloatAxioms.eqb_spec in *;
  unfold SFltb, SFleb, SFeqb in *.

Lemma mul_comm (x y : float) : x * y = y * x.
Proof. apply Prim2SF_inj; rewrite !FloatAxioms.mul_spec; apply SFmul_comm. Qed.

Lemma ltb_trans (a b c : float) :
  (a <? b) = true -> (b <? c) = true -> (a <? c) = true.
Proof.
  to_spec.
  destruct (SFcompare (Prim2SF a) (Prim2SF b)) as [[]|] eqn:E1; try discriminate.
  destruct (SFcompare (Prim2SF b) (Prim2SF c)) as [[]|] eqn:E2; try discriminate.
  now rewrite (SFcompare_lt_trans _ _ _ E1 E2).
Qed.

Lemma ltb_leb_trans (a b c : float) :
  (a <? b) = true -> (b <=? c) = true -> (a <? c) = true.
Proof.
  to_spec.
  destruct (SFcompare (Prim2SF a) (Prim2SF b)) as [[]|] eqn:E1; try discriminate.
  destruct (SFcompare (Prim2SF b) (Prim2SF c)) as [[]|] eqn:E2; try discriminate.
  - now rewrite (SFcompare_lt_eq_trans _ _ _ E1 E2).
  - now rewrite (SFcompare_lt_trans _ _ _ E1 E2).
Qed.

Lemma leb_trans (a b c : float) :
  (a <=? b) = true -> (b <=? c) = true -> (a <=? c) = true.
Proof.
  to_spec.
  destruct (SFcompare (Prim2SF a) (Prim2SF b)) as [[]|] eqn:E1; try discriminate;
  destruct (SFcompare (Prim2SF b) (Prim2SF c)) as [[]|] eqn:E2; try discriminate; intros _ _.
  - now rewrite (SFcompare_eq_trans _ _ _ E1 E2).
  - now rewrite (SFcompare_eq_lt_trans _ _ _ E1 E2).
  - now rewrite (SFcompare_lt_eq_trans _ _ _ E1 E2).
  - now rewrite (SFcompare_lt_trans _ _ _ E1 E2).
Qed.

Lemma ltb_leb (a b : float) : (a <? b) = true -> (a <=? b) = true.
Proof.
  to_spec. now destruct (SFcompare (Prim2SF a) (Prim2SF b)) as [[]|].
Qed.

Lemma ltb_not_leb (a b : float) : (a <? b) = true -> (b <=? a) = false.
Proof.
  to_spec.
  destruct (SFcompare (Prim2SF a) (Prim2SF b)) as [[]|] eqn:E; try discriminate.
  now rewrite (SFcompare_lt_gt _ _ E).
Qed.

Lemma leb_not_ltb (a b : float) : (a <=? b) = true -> (b <? a) = false.
Proof.
  intros H; destruct (b <? a) eqn:E; [|reflexivity].
  apply ltb_not_leb in E; congruence.
Qed.

Lemma ltb_number (a b : float) : (a <? b) = true -> number a /\ number b.
Proof.
  to_spec.
  destruct (SFcompare (Prim2SF a) (Prim2SF b)) as [c|] eqn:E; try discriminate.
  destruct (SFcompare_some_refl _ _ _ E) as [-> ->]; auto.
Qed.

Lemma leb_number (a b : float) : (a <=? b) = true -> number a /\ number b.
Proof.
  to_spec.
  destruct (SFcompare (Prim2SF a) (Prim2SF b)) as [c|] eqn:E; try discriminate.
  destruct (SFcompare_some_refl _ _ _ E) as [-> ->]; auto.
Qed.

(** On numbers the order is total. *)
Lemma not_ltb_leb (a b : float) :
  number a -> number b -> (a <? b) = false -> (b <=? a) = true.
Proof.
  to_spec.
  destruct (SFcompare (Prim2SF a) (Prim2SF b)) as [[]|] eqn:E; try discriminate; intros Ha Hb _.
  - now rewrite (SFcompare_eq_sym _ _ E).
  - now rewrite (SFcompare_gt_lt _ _ E).
  - destruct (SFcompare_none _ _ E) as [H | H]; rewrite H in *; discriminate.
Qed.

Lemma not_leb_ltb (a b : float) :
  number a -> number b -> (a <=? b) = false -> (b <? a) = true.
Proof.
  to_spec.
  destruct (SFcompare (Prim2SF a) (Prim2SF b)) as [[]|] eqn:E; try discriminate; intros Ha Hb _.
  - now rewrite (SFcompare_gt_lt _ _ E).
  - destruct (SFcompare_none _ _ E) as [H | H]; rewrite H in *; discriminate.
Qed.

Lemma leb_ltb_trans (a b c : float) :
  (a <=? b) = true -> (b <? c) = true -> (a <? c) = true.
Proof.
  to_spec.
  destruct (SFcompare (Prim2SF a) (Prim2SF b)) as [[]|] eqn:E1; try discriminate;
  destruct (SFcompare (Prim2SF b) (Prim2SF c)) as [[]|] eqn:E2; try discriminate; intros _ _.
  - now rewrite (SFcompare_eq_lt_trans _ _ _ E1 E2).
  - now rewrite (SFcompare_lt_trans _ _ _ E1 E2).
Qed.

Lemma leb_antisym (a b : float) :
  (a <=? b) = true -> (b <=? a) = true -> (a =? b) = true.
Proof.
  to_spec.
  destruct (SFcompare (Prim2SF a) (Prim2SF b)) as [[]|] eqn:E; try discriminate; auto.
  rewrite (SFcompare_lt_gt _ _ E); discriminate.
Qed.

Lemma eqb_leb (a b : float) : (a =? b) = true -> (a <=? b) = true /\ (b <=? a) = true.
Proof.
  to_spec.
  destruct (SFcompare (Prim2SF a) (Prim2SF b)) as [[]|] eqn:E; try discriminate.
  now rewrite (SFcompare_eq_sym _ _ E).
Qed.

End FloatOrder.

(** ** The matcher *)

Module MatcherFacts.
Import PyStr Pathlib Normalize Matcher FloatOrder.
Local Open Scope float_scope.

Section WithRatio.

Variable ratio : str -> str -> float.

(** The score of candidate [m] for the normalised subtitle stem [s]. *)
Definition score_of (s : str) (m : Path) : float :=
  score_spec ratio s (normalize_stem (stem m)).

Lemma combined_score_spec (a b : str) :
  combined_score ratio a b = Ok (score_spec ratio a b).
Proof.
  unfold combined_score, truediv, score_spec.
  destruct (Z.eqb_spec (Z.max (Z.max (len a) (len b)) 1) 0) as [E|_]; [lia|].
  cbn [bind]. now rewrite (mul_comm _ 0.1).
Qed.

(** What the loop knows after reading the candidates [seen]. *)
Definition scanned (s : str) (seen : list Path)
    (best : option Path) (best_score : float) : Prop :=
  match best with
  | None =>
      best_score = (-1) /\
      forall x, In x seen -> ((-1) <? score_of s x) = false
  | Some m =>
      best_score = score_of s m /\ number (score_of s m) /\
      ((-1) <? score_of s m) = true /\
      exists before after,
        seen = before ++ m :: after /\
        (forall x, In x before -> (score_of s m <=? score_of s x) = false) /\
        (forall x, In x after -> (score_of s m <? score_of s x) = false)
  end.

Lemma not_leb_after_ltb (a b c : float) :
  (a <? b) = true -> (a <? c) = false -> (b <=? c) = false.
Proof.
  intros Hab Hac; destruct (b <=? c) eqn:E; [|reflexivity].
  rewrite (ltb_leb_trans _ _ _ Hab E) in Hac; discriminate.
Qed.

Lemma scan_step (s : str) (seen : list Path) (m : Path)
    (best : option Path) (best_score : float) :
  scanned s seen best best_score ->
  if best_score <? score_of s m
  then scanned s (seen ++ [m]) (Some m) (score_of s m)
  else scanned s (seen ++ [m]) best best_score.
Proof.
  intros Inv; destruct (best_score <? score_of s m) eqn:E.
  - destruct best as [b|]; cbn [scanned] in *.
    + destruct Inv as (-> & Hb & Hlow & before & after & -> & Hbefore & Hafter).
      split; [reflexivity|]. split; [apply (ltb_number _ _ E)|].
      split; [exact (ltb_trans _ _ _ Hlow E)|].
      exists (before ++ b :: after), []. split; [reflexivity|].
      split; [|intros x []].
      intros x Hx; apply in_app_iff in Hx as [Hx | [<- | Hx]].
      * destruct (score_of s m <=? score_of s x) eqn:E'; [|reflexivity].
        pose proof (ltb_leb _ _ (ltb_leb_trans _ _ _ E E')) as H.
        rewrite (Hbefore x Hx) in H; discriminate.
      * exact (ltb_not_leb _ _ E).
      * exact (not_leb_after_ltb _ _ _ E (Hafter x Hx)).
    + destruct Inv as (-> & Hseen).
      split; [reflexivity|]. split; [apply (ltb_number _ _ E)|].
      split; [exact E|].
      exists seen, []. split; [reflexivity|]. split; [|intros x []].
      intros x Hx; exact (not_leb_after_ltb _ _ _ E (Hseen x Hx)).
  - destruct best as [b|]; cbn [scanned] in *.
    + destruct Inv as (-> & Hb & Hlow & before & after & -> & Hbefore & Hafter).
      repeat (split; [assumption || reflexivity|]).
      exists before, (after ++ [m]). split; [now rewrite <- app_assoc|].
      split; [assumption|].
      intros x Hx; apply in_app_iff in Hx as [Hx | [<- | []]]; auto.
    + destruct Inv as (-> & Hseen). split; [reflexivity|].
      intros x Hx; apply in_app_iff in Hx as [Hx | [<- | []]]; auto.
Qed.

(** The loop never raises, and its result describes the whole list. *)
Lemma scan_scanned (s : str) (rest seen : list Path)
    (best : option Path) (best_score : float) :
  scanned s seen best best_score ->
  exists best' score',
    scan ratio s rest best best_score = Ok (best', score') /\
    scanned s (seen ++ rest) best' score'.
Proof.
  revert seen best best_score; induction rest as [|m rest IH];
    intros seen best best_score Inv.
  - exists best, best_score; rewrite app_nil_r; now split.
  - cbn [scan]. rewrite combined_score_spec; cbn [bind].
    pose proof (scan_step s seen m best best_score Inv) as Hstep.
    fold (score_of s m).
    replace (seen ++ m :: rest) with ((seen ++ [m]) ++ rest)
      by now rewrite <- app_assoc.
    destruct (best_score <? score_of s m); now apply IH.
Qed.

Lemma scan_from_start (s : str) (media_files : list Path) :
  exists best score,
    scan ratio s media_files None (-1) = Ok (best, score) /\
    scanned s media_files best score.
Proof.
  apply (scan_scanned s media_files [] None (-1)).
  split; [reflexivity | intros x []].
Qed.

(** The matcher's answer in terms of the loop's result. *)
Lemma best_media_match_scanned (for_sub : Path) (media_files : list Path) :
  exists best score,
    scanned (normalize_stem (stem for_sub)) media_files best score /\
    best_media_match ratio for_sub media_files =
    Ok match best with
       | Some b => if THRESHOLD <=? score then Some b else None
       | None => None
       end.
Proof.
  destruct (scan_from_start (normalize_stem (stem for_sub)) media_files)
    as (best & score & E & Inv).
  exists best, score; split; [assumption|].
  unfold best_media_match; now rewrite E.
Qed.

Lemma best_media_match_nil (for_sub : Path) :
  best_media_match ratio for_sub [] = Ok None.
Proof. reflexivity. Qed.

Lemma best_media_match_total (for_sub : Path) (media_files : list Path) :
  exists r, best_media_match ratio for_sub media_files = Ok r.
Proof.
  destruct (best_media_match_scanned for_sub media_files) as (best & score & _ & E).
  rewrite E; eauto.
Qed.

(** A best candidate: one of the candidates, scoring at least as much as
    every candidate. *)
Definition top_candidate (s : str) (media_files : list Path) (m : Path) : Prop :=
  In m media_files /\
  forall x, In x media_files -> (score_of s x <=? score_of s m) = true.

Lemma scanned_in (s : str) (seen : list Path) (b : Path) (score : float) :
  scanned s seen (Some b) score -> In b seen.
Proof.
  intros (_ & _ & _ & before & after & -> & _); apply in_app_iff; simpl; auto.
Qed.

Lemma best_media_match_in (for_sub : Path) (media_files : list Path) (m : Path) :
  best_media_match ratio for_sub media_files = Ok (Some m) -> In m media_files.
Proof.
  intros Hm.
  destruct (best_media_match_scanned for_sub media_files) as (best & score & Inv & E).
  rewrite E in Hm. destruct best as [b|]; [|discriminate].
  destruct (THRESHOLD <=? score); [|discriminate].
  injection Hm as ->. exact (scanned_in _ _ _ _ Inv).
Qed.

Lemma scanned_no_better (s : str) (seen : list Path) (b : Path) (score : float) :
  scanned s seen (Some b) score ->
  forall x, In x seen -> (score_of s b <? score_of s x) = false.
Proof.
  intros (_ & Hb & _ & before & after & -> & Hbefore & Hafter) x Hx.
  apply in_app_iff in Hx as [Hx | [<- | Hx]]; auto.
  - destruct (score_of s b <? score_of s x) eqn:E; [|reflexivity].
    apply ltb_leb in E; rewrite (Hbefore x Hx) in E; discriminate.
  - now apply leb_not_ltb.
Qed.

Lemma scanned_top (s : str) (seen : list Path) (b m : Path) (score : float) :
  scanned s seen (Some b) score -> top_candidate s seen m ->
  (score_of s b =? score_of s m) = true.
Proof.
  intros Inv [Hm Htop].
  pose proof (scanned_in _ _ _ _ Inv) as Hb.
  pose proof (scanned_no_better _ _ _ _ Inv m Hm) as Hnb.
  apply leb_antisym; [now apply Htop|].
  apply not_ltb_leb; [| |assumption].
  - now apply (leb_number _ _ (Htop b Hb)).
  - now apply (leb_number _ _ (Htop m Hm)).
Qed.

Lemma threshold_above_start (x : float) :
  (THRESHOLD <=? x) = true -> ((-1) <? x) = true.
Proof.
  intros H. assert (H0 : ((-1) <? THRESHOLD) = true) by reflexivity.
  revert H0 H. generalize THRESHOLD (-1). intros a b; apply ltb_leb_trans.
Qed.

(** C3: with [m] a best candidate, the matcher returns a candidate (one
    scoring as much as [m]) exactly when that score is at least
    [THRESHOLD = 0.55], and returns no match exactly when it is below; a score
    of exactly 0.55 is accepted and a score of 0.549 is rejected. *)
Theorem best_media_match_threshold
    (for_sub : Path) (media_files : list Path) (m : Path)
    (Htop : top_candidate (normalize_stem (stem for_sub)) media_files m) :
  let s := normalize_stem (stem for_sub) in
  ((THRESHOLD <=? score_of s m) = true <->
   exists b, best_media_match ratio for_sub media_files = Ok (Some b) /\
             In b media_files /\ (score_of s b =? score_of s m) = true) /\
  ((score_of s m <? THRESHOLD) = true <->
   best_media_match ratio for_sub media_files = Ok None) /\
  ((score_of s m =? 0.55) = true ->
   exists b, best_media_match ratio for_sub media_files = Ok (Some b)) /\
  ((score_of s m =? 0.549) = true ->
   best_media_match ratio for_sub media_files = Ok None).
Proof.
  intros s.
  destruct (best_media_match_scanned for_sub media_files)
    as (best & score & Inv & E). fold s in Inv.
  assert (Hnum : number (score_of s m))
    by (destruct Htop as [Hm H]; exact (H m Hm)).
  assert (Hacc : (THRESHOLD <=? score_of s m) = true ->
                 exists b, best_media_match ratio for_sub media_files = Ok (Some b) /\
                           In b media_files /\ (score_of s b =? score_of s m) = true).
  { intros Hth. destruct best as [b|].
    - pose proof (scanned_top _ _ _ _ _ Inv Htop) as Heq.
      exists b. split; [|split; [exact (scanned_in _ _ _ _ Inv) | exact Heq]].
      destruct Inv as (-> & _). rewrite E.
      apply eqb_leb in Heq as [_ Hle]. now rewrite (leb_trans _ _ _ Hth Hle).
    - destruct Inv as (_ & Hseen). destruct Htop as [Hm _].
      pose proof (Hseen m Hm) as H.
      rewrite (threshold_above_start _ Hth) in H.
      discriminate. }
  assert (Hrej : (score_of s m <? THRESHOLD) = true ->
                 best_media_match ratio for_sub media_files = Ok None).
  { intros Hlt. rewrite E. destruct best as [b|]; [|reflexivity].
    pose proof (scanned_top _ _ _ _ _ Inv Htop) as Heq.
    destruct Inv as (-> & _). apply eqb_leb in Heq as [Hle _].
    now rewrite (ltb_not_leb _ _ (leb_ltb_trans _ _ _ Hle Hlt)). }
  split; [split; [exact Hacc|]|split; [split; [exact Hrej|]|split]].
  - intros (b & Hb & _ & Heq). rewrite E in Hb.
    destruct best as [b'|]; [|discriminate].
    pose proof (scanned_top _ _ _ _ _ Inv Htop) as Heq'.
    destruct Inv as (-> & _).
    destruct (THRESHOLD <=? score_of s b') eqn:Hth; [|discriminate].
    apply eqb_leb in Heq' as [Hle _]. exact (leb_trans _ _ _ Hth Hle).
  - intros Hnone.
    destruct (score_of s m <? THRESHOLD) eqn:Hlt; [reflexivity|exfalso].
    assert (Hth : (THRESHOLD <=? score_of s m) = true)
      by (apply not_ltb_leb; [assumption | reflexivity | assumption]).
    destruct (Hacc Hth) as (b & Hb & _). congruence.
  - intros Heq; apply eqb_leb in Heq as [_ Hle].
    destruct (Hacc Hle) as (b & Hb & _); eauto.
  - intros Heq; apply eqb_leb in Heq as [Hle _].
    apply Hrej. apply (leb_ltb_trans _ _ _ Hle). reflexivity.
Qed.


(** C5: a returned candidate is the earliest of the list with the maximal
    score: every candidate listed before it scores strictly less (none scores
    at least as much), so none of them has the same normalised stem, and no
    candidate listed after it scores more. *)
Theorem best_media_match_first_wins
    (for_sub : Path) (media_files : list Path) (m : Path)
    (Hm : best_media_match ratio for_sub media_files = Ok (Some m)) :
  let s := normalize_stem (stem for_sub) in
  exists before after,
    media_files = before ++ m :: after /\
    (forall x, In x before ->
       (score_of s m <=? score_of s x) = false /\
       normalize_stem (stem x) <> normalize_stem (stem m)) /\
    (forall x, In x after -> (score_of s m <? score_of s x) = false).
Proof.
  intros s.
  destruct (best_media_match_scanned for_sub media_files)
    as (best & score & Inv & E). fold s in Inv.
  rewrite E in Hm. destruct best as [b|]; [|discriminate].
  destruct (THRESHOLD <=? score); [|discriminate].
  injection Hm as ->.
  destruct Inv as (_ & Hnum & _ & before & after & -> & Hbefore & Hafter).
  exists before, after. split; [reflexivity|]. split; [|assumption].
  intros x Hx. split; [now apply Hbefore|].
  intros Hsame. pose proof (Hbefore x Hx) as H.
  unfold score_of in H, Hnum. rewrite Hsame in H. unfold number in Hnum. congruence.
Qed.

(** C10: on an empty candidate list the matcher returns the no-match
    signal, and on no list does it raise. *)
Theorem best_media_match_empty (for_sub : Path) :
  best_media_match ratio for_sub [] = Ok None /\
  forall media_files, exists r, best_media_match ratio for_sub media_files = Ok r.
Proof.
  split; [apply best_media_match_nil | apply best_media_match_total].
Qed.

End WithRatio.

(** Concrete inputs: one folder with a subtitle and two videos, and a
    similarity measure that answers the same value for every pair. *)
Definition demo_sub : Path := mkPath (py "/") [py "tv"; py "Pilot.srt"].
Definition demo_mp4 : Path := mkPath (py "/") [py "tv"; py "pilot.mp4"].
Definition demo_mkv : Path := mkPath (py "/") [py "tv"; py "PILOT.mkv"].
Definition flat_ratio (v : float) : str -> str -> float := fun _ _ => v.

Lemma best_media_match_threshold_witness :
  top_candidate (flat_ratio 0.55) (normalize_stem (stem demo_sub)) [demo_mp4] demo_mp4 /\
  exists b, best_media_match (flat_ratio 0.55) demo_sub [demo_mp4] = Ok (Some b).
Proof.
  assert (H : top_candidate (flat_ratio 0.55) (normalize_stem (stem demo_sub))
                [demo_mp4] demo_mp4).
  { split; [now left|]. intros x [<- | []]. vm_compute. reflexivity. }
  split; [exact H|].
  apply (best_media_match_threshold (flat_ratio 0.55) demo_sub [demo_mp4] demo_mp4 H).
  vm_compute. reflexivity.
Defined.

Lemma best_media_match_first_wins_witness :
  exists before after,
    [demo_mp4; demo_mkv] = before ++ demo_mp4 :: after /\
    (forall x, In x before ->
       (score_of (flat_ratio 1) (normalize_stem (stem demo_sub)) demo_mp4 <=?
        score_of (flat_ratio 1) (normalize_stem (stem demo_sub)) x) = false /\
       normalize_stem (stem x) <> normalize_stem (stem demo_mp4)) /\
    (forall x, In x after ->
       (score_of (flat_ratio 1) (normalize_stem (stem demo_sub)) demo_mp4 <?
        score_of (flat_ratio 1) (normalize_stem (stem demo_sub)) x) = false).
Proof.
  apply (best_media_match_first_wins (flat_ratio 1) demo_sub [demo_mp4; demo_mkv] demo_mp4).
  vm_compute. reflexivity.
Defined.

End MatcherFacts.

(** ** Paths *)

Module PathFacts.
Import PyStr Pathlib.

(** The media path with its extension replaced by [.srt]: same anchor and
    directory, the media's stem followed by [.srt].  The subtitle does not
    occur in it. *)
Definition srt_beside (m : Path) : Path :=
  mkPath (root m) (removelast (names m) ++ [stem m ++ py ".srt"]).

Lemma rfind_from_app (c : ascii) (a b : str) (i found : Z) :
  rfind_from c i found (a ++ b) =
  rfind_from c (i + len a) (rfind_from c i found a) b.
Proof.
  revert i found; induction a as [|x a IH]; intros i found.
  - unfold len; simpl; now rewrite Z.add_0_r.
  - cbn [app rfind_from]. rewrite IH. f_equal. unfold len; cbn [List.length]. lia.
Qed.

Lemma rfind_from_range (c : ascii) (s : str) (i found : Z) :
  rfind_from c i found s = found \/
  (i <= rfind_from c i found s < i + len s)%Z.
Proof.
  revert i found; induction s as [|x s IH]; intros i found; [now left|].
  cbn [rfind_from]. unfold len in *; cbn [List.length].
  destruct (IH (i + 1)%Z (if Ascii.eqb x c then i else found)) as [E | H].
  - rewrite E. destruct (Ascii.eqb x c); [right; lia | now left].
  - right; lia.
Qed.

Lemma suffix_index_range (name : str) (i : nat) :
  suffix_index name = Some i -> 0 < i /\ i + 1 < List.length name.
Proof.
  unfold suffix_index.
  destruct (0 <? rfind "."%char name)%Z eqn:E1; [|discriminate].
  destruct (rfind "."%char name <? len name - 1)%Z eqn:E2; [|discriminate].
  cbn [andb]. intros [= <-].
  apply Z.ltb_lt in E1, E2. unfold len in E2. lia.
Qed.

Lemma name_stem_suffix (p : Path) : name p = stem p ++ suffix p.
Proof.
  unfold stem, suffix. destruct (suffix_index (name p)).
  - now rewrite firstn_skipn.
  - now rewrite app_nil_r.
Qed.

Lemma stem_empty (p : Path) : stem p = [] <-> name p = [].
Proof.
  unfold stem. destruct (suffix_index (name p)) as [i|] eqn:E; [|tauto].
  apply suffix_index_range in E as [Hi Hn].
  destruct (name p) as [|c t]; [simpl in Hn; lia|].
  destruct i; [lia|]. split; discriminate.
Qed.

Lemma suffix_nonempty_name (p : Path) : suffix p <> [] -> name p <> [].
Proof.
  intros H E. apply H. unfold suffix. rewrite E. reflexivity.
Qed.

Lemma str_eqb_eq (a b : str) : str_eqb a b = true <-> a = b.
Proof. unfold str_eqb; destruct (list_eq_dec ascii_dec a b); split; congruence. Qed.

Lemma str_eqb_nil (a : str) : str_eqb a [] = false <-> a <> [].
Proof. unfold str_eqb; destruct (list_eq_dec ascii_dec a []); split; congruence. Qed.

(** [with_suffix(".srt")] raises on a path without a name and otherwise
    answers [srt_beside]. *)
Lemma with_suffix_srt (p : Path) :
  with_suffix p (py ".srt") =
  if str_eqb (name p) [] then Raise ValueError else Ok (srt_beside p).
Proof.
  unfold with_suffix.
  assert (H1 : existsb (Ascii.eqb "/"%char) (py ".srt") = false) by reflexivity.
  assert (H2 : (negb (str_eqb (py ".srt") []) && negb (startswith_dot (py ".srt")))
               || str_eqb (py ".srt") ["."%char] = false) by reflexivity.
  rewrite H1, H2.
  destruct (str_eqb (name p) []) eqn:En; [reflexivity|].
  unfold srt_beside. do 3 f_equal.
  unfold suffix, stem.
  destruct (suffix_index (name p)) as [i|] eqn:E.
  - apply suffix_index_range in E as [Hi Hn].
    assert (Hs : str_eqb (skipn i (name p)) [] = false).
    { apply str_eqb_nil. intros H. apply (f_equal (@List.length _)) in H.
      rewrite length_skipn in H. simpl in H. lia. }
    rewrite Hs, length_skipn. do 2 f_equal.
    replace (List.length (name p) - (List.length (name p) - i)) with i by lia.
    reflexivity.
  - reflexivity.
Qed.

Lemma removelast_snoc {A : Type} (l : list A) (x : A) : removelast (l ++ [x]) = l.
Proof. apply removelast_last. Qed.

Lemma last_snoc {A : Type} (l : list A) (x d : A) : last (l ++ [x]) d = x.
Proof. apply last_last. Qed.

Lemma rfind_srt (x : str) : rfind "."%char (x ++ py ".srt") = len x.
Proof.
  unfold rfind. rewrite rfind_from_app. reflexivity.
Qed.

Lemma suffix_index_srt (x : str) :
  x <> [] -> suffix_index (x ++ py ".srt") = Some (List.length x).
Proof.
  intros Hx. unfold suffix_index. rewrite rfind_srt.
  assert (Hlen : len (x ++ py ".srt") = (len x + 4)%Z)
    by (unfold len; rewrite length_app; cbn [py list_ascii_of_string List.length]; lia).
  assert (Hpos : (0 < len x)%Z)
    by (unfold len; destruct x; [congruence | cbn [List.length]; lia]).
  rewrite Hlen.
  destruct (Z.ltb_spec 0 (len x)); [|lia].
  destruct (Z.ltb_spec (len x) (len x + 4 - 1)); [|lia].
  cbn [andb]. unfold len. now rewrite Nat2Z.id.
Qed.

(** The output path lies beside the media file and keeps its stem. *)
Lemma srt_beside_parts (m : Path) :
  root (srt_beside m) = root m /\
  parent (srt_beside m) = parent m /\
  name (srt_beside m) = stem m ++ py ".srt" /\
  (name m <> [] -> stem (srt_beside m) = stem m /\ suffix (srt_beside m) = py ".srt").
Proof.
  assert (Hname : name (srt_beside m) = stem m ++ py ".srt")
    by (unfold name, srt_beside; cbn [names]; apply last_snoc).
  split; [reflexivity|]. split; [|split; [exact Hname|]].
  - unfold parent, srt_beside; cbn [root names]. now rewrite removelast_snoc.
  - intros Hn. assert (Hs : stem m <> []) by (rewrite stem_empty; exact Hn).
    unfold stem at 1, suffix. rewrite Hname, (suffix_index_srt _ Hs).
    rewrite firstn_app, firstn_all, Nat.sub_diag, skipn_app, skipn_all, Nat.sub_diag.
    cbn [firstn skipn app]. now rewrite app_nil_r.
Qed.

End PathFacts.

(** ** The batch run *)

Module BatchFacts.
Import PyStr Pathlib Matcher Batch PathFacts.

Lemma path_eqb_eq (p q : Path) : path_eqb p q = true <-> p = q.
Proof. unfold path_eqb; destruct (path_eq_dec p q); split; congruence. Qed.

Lemma get_setdefault_append (d : dict) (k v q : Path) :
  get (setdefault_append d k v) q [] =
  if path_eqb q k then get d q [] ++ [v] else get d q [].
Proof.
  induction d as [|[k' vs] d IH]; cbn [setdefault_append get].
  - destruct (path_eqb q k); reflexivity.
  - destruct (path_eqb k k') eqn:E; cbn [get].
    + apply path_eqb_eq in E as ->. destruct (path_eqb q k'); reflexivity.
    + destruct (path_eqb q k') eqn:E'; [|exact IH].
      apply path_eqb_eq in E' as ->.
      destruct (path_eqb k' k) eqn:E''; [|reflexivity].
      apply path_eqb_eq in E'' as ->.
      unfold path_eqb in E. destruct (path_eq_dec k k); congruence.
Qed.

(** Every candidate found for a directory is a media file of the listing
    lying in that directory. *)
Definition grouped (all_files : list Path) (d : dict) : Prop :=
  forall k m, In m (get d k []) ->
    In m all_files /\ suffix_in MEDIA_EXTS m = true /\ parent m = k.

Lemma group_media_grouped (all_files : list Path) :
  grouped all_files (group_media all_files).
Proof.
  unfold group_media.
  assert (H : forall rest seen d,
             grouped seen d ->
             grouped (seen ++ rest)
               (fold_left (fun d p => if suffix_in MEDIA_EXTS p
                                      then setdefault_append d (parent p) p else d)
                          rest d)).
  { induction rest as [|p rest IH]; intros seen d Hd; cbn [fold_left].
    - now rewrite app_nil_r.
    - replace (seen ++ p :: rest) with ((seen ++ [p]) ++ rest) by now rewrite <- app_assoc.
      apply IH. intros k m Hm.
      destruct (suffix_in MEDIA_EXTS p) eqn:Ep.
      + rewrite get_setdefault_append in Hm.
        destruct (path_eqb k (parent p)) eqn:Ek.
        * apply path_eqb_eq in Ek as ->.
          apply in_app_iff in Hm as [Hm | [<- | []]].
          -- destruct (Hd _ _ Hm) as (? & ? & ?). rewrite in_app_iff; auto.
          -- rewrite in_app_iff; simpl; auto.
        * destruct (Hd _ _ Hm) as (? & ? & ?). rewrite in_app_iff; auto.
      + destruct (Hd _ _ Hm) as (? & ? & ?). rewrite in_app_iff; auto. }
  apply (H all_files [] []). intros k m [].
Qed.

Lemma media_has_name (m : Path) : suffix_in MEDIA_EXTS m = true -> name m <> [].
Proof.
  intros H. apply suffix_nonempty_name. intros E.
  unfold suffix_in in H. rewrite E in H. discriminate.
Qed.

Section Run.

Variable cfg : Behavior.
Variable ratio : str -> str -> float.
Variable FS : Type.
Variable exists_ : FS -> Path -> bool.
Variable spawn : list str -> FS -> (Z * str * str) * FS.

(** One turn of the loop for the subtitle [srt], case by case. *)
Inductive turn (d : dict) (srt : Path) (st : State FS) : State FS -> Prop :=
| turn_no_media :
    get d (parent srt) [] = [] ->
    turn d srt st (fail st srt (py "no media in folder"))
| turn_no_match :
    best_media_match ratio srt (get d (parent srt) []) = Ok None ->
    turn d srt st (fail st srt (py "no good match"))
| turn_skip (m : Path) :
    best_media_match ratio srt (get d (parent srt) []) = Ok (Some m) ->
    In m (get d (parent srt) []) ->
    exists_ (fs st) (srt_beside m) = true -> OVERWRITE cfg = false ->
    turn d srt st (skip st srt (py "exists"))
| turn_synced (m : Path) (out err : str) (fs' : FS) :
    best_media_match ratio srt (get d (parent srt) []) = Ok (Some m) ->
    In m (get d (parent srt) []) ->
    exists_ (fs st) (srt_beside m) && negb (OVERWRITE cfg) = false ->
    spawn (ffsubsync_cmd m srt (srt_beside m)) (fs st) = (0%Z, out, err, fs') ->
    turn d srt st
      (sync (mkState fs' (calls st ++ [ffsubsync_cmd m srt (srt_beside m)])
                     (synced st) (skipped st) (failed st)) srt m)
| turn_failed (m : Path) (code : Z) (out err : str) (fs' : FS) :
    best_media_match ratio srt (get d (parent srt) []) = Ok (Some m) ->
    In m (get d (parent srt) []) ->
    exists_ (fs st) (srt_beside m) && negb (OVERWRITE cfg) = false ->
    spawn (ffsubsync_cmd m srt (srt_beside m)) (fs st) = (code, out, err, fs') ->
    code <> 0%Z ->
    turn d srt st
      (fail (mkState fs' (calls st ++ [ffsubsync_cmd m srt (srt_beside m)])
                     (synced st) (skipped st) (failed st)) srt
            (py "ffsubsync error (" ++ str_of_int code ++ py ")")).

(** The body of the loop never raises when every candidate has a name, and
    does one of the five turns. *)
Lemma process_turn (d : dict) (srt : Path) (st : State FS) :
  (forall m, In m (get d (parent srt) []) -> name m <> []) ->
  exists st', process cfg ratio exists_ spawn d srt st = Ok st' /\ turn d srt st st'.
Proof.
  intros Hnamed. unfold process.
  destruct (get d (parent srt) []) as [|c cs] eqn:Ec.
  - eexists; split; [reflexivity|]. now apply turn_no_media.
  - rewrite <- Ec in *.
    destruct (MatcherFacts.best_media_match_total ratio srt (get d (parent srt) []))
      as [[m|] Hm]; rewrite Hm; cbn [bind].
    + pose proof (MatcherFacts.best_media_match_in ratio _ _ _ Hm) as Hin.
      rewrite with_suffix_srt.
      destruct (str_eqb (name m) []) eqn:En;
        [apply str_eqb_eq in En; now destruct (Hnamed m Hin)|].
      cbn [bind].
      destruct (exists_ (fs st) (srt_beside m) && negb (OVERWRITE cfg)) eqn:Eskip.
      * eexists; split; [reflexivity|].
        apply andb_prop in Eskip as [He Ho].
        apply (turn_skip d srt st m); auto. now destruct (OVERWRITE cfg).
      * unfold run. fold (ffsubsync_cmd m srt (srt_beside m)).
        destruct (spawn (ffsubsync_cmd m srt (srt_beside m)) (fs st))
          as [[[code out] err] fs'] eqn:Esp.
        destruct (Z.eqb_spec code 0) as [-> | Hcode].
        -- eexists; split; [reflexivity|]. now apply (turn_synced d srt st m out err fs').
        -- eexists; split; [reflexivity|].
           now apply (turn_failed d srt st m code out err fs').
    + eexists; split; [reflexivity|]. now apply turn_no_match.
Qed.

(** The subtitles recorded so far, over the three lists. *)
Definition recorded (st : State FS) : list Path :=
  map fst (synced st) ++ map fst (skipped st) ++ map fst (failed st).

Definition tally (st : State FS) : nat :=
  List.length (synced st) + List.length (skipped st) + List.length (failed st).

Lemma tally_recorded (st : State FS) : tally st = List.length (recorded st).
Proof. unfold tally, recorded. rewrite !length_app, !length_map. lia. Qed.

Lemma turn_recorded (d : dict) (srt : Path) (st st' : State FS) :
  turn d srt st st' -> Permutation (recorded st') (recorded st ++ [srt]).
Proof.
  intros H; destruct H; unfold recorded; cbn [fail skip sync synced skipped failed];
    rewrite ?map_app; cbn [map fst]; rewrite <- !app_assoc.
  1,2,5: reflexivity.
  - do 2 apply Permutation_app_head. apply Permutation_app_comm.
  - apply Permutation_app_head.
    rewrite (app_assoc (map fst (skipped st))). apply Permutation_app_comm.
Qed.

Lemma process_all_recorded (d : dict) (subs : list Path) (st : State FS) :
  (forall k m, In m (get d k []) -> name m <> []) ->
  exists st', process_all cfg ratio exists_ spawn d subs st = Ok st' /\
              Permutation (recorded st') (recorded st ++ subs).
Proof.
  intros Hnamed. revert st; induction subs as [|srt subs IH]; intros st.
  - exists st; split; [reflexivity | now rewrite app_nil_r].
  - cbn [process_all].
    destruct (process_turn d srt st (Hnamed _)) as (st1 & -> & Hturn). cbn [bind].
    destruct (IH st1) as (st' & -> & Hperm). exists st'; split; [reflexivity|].
    rewrite Hperm, (turn_recorded _ _ _ _ Hturn), <- app_assoc. reflexivity.
Qed.

(** Every command run is the aligner on a subtitle of [subs] and a media
    file of its directory, writing beside the media file; every pair recorded
    as synced was aligned that way. *)
Definition aligned_beside (all_files subs : list Path) (cmd : list str) : Prop :=
  exists srt m,
    In srt subs /\ In m all_files /\ suffix_in MEDIA_EXTS m = true /\
    parent m = parent srt /\ cmd = ffsubsync_cmd m srt (srt_beside m).

Definition outputs_beside (all_files subs : list Path) (st : State FS) : Prop :=
  (forall cmd, In cmd (calls st) -> aligned_beside all_files subs cmd) /\
  (forall srt m, In (srt, m) (synced st) ->
     In srt subs /\ In m all_files /\ suffix_in MEDIA_EXTS m = true /\
     parent m = parent srt /\
     In (ffsubsync_cmd m srt (srt_beside m)) (calls st)).

Lemma turn_outputs_beside (all_files subs : list Path) (d : dict) (srt : Path)
    (st st' : State FS) :
  grouped all_files d -> In srt subs ->
  turn d srt st st' -> outputs_beside all_files subs st ->
  outputs_beside all_files subs st'.
Proof.
  intros Hd Hsrt Hturn [Hcalls Hsynced].
  assert (Hnew : forall m, In m (get d (parent srt) []) ->
                  aligned_beside all_files subs (ffsubsync_cmd m srt (srt_beside m))).
  { intros m Hm. destruct (Hd _ _ Hm) as (? & ? & ?). exists srt, m; auto. }
  destruct Hturn; split; cbn [fail skip sync calls synced]; auto.
  - intros cmd Hc; apply in_app_iff in Hc as [Hc | [<- | []]]; auto.
  - intros s m' Hs. rewrite in_app_iff.
    apply in_app_iff in Hs as [Hs | [[= <- <-] | []]].
    + destruct (Hsynced _ _ Hs) as (? & ? & ? & ? & ?); auto 6.
    + destruct (Hd _ _ H0) as (? & ? & ?). repeat (split; [assumption|]).
      right; now left.
  - intros cmd Hc; apply in_app_iff in Hc as [Hc | [<- | []]]; auto.
  - intros s m' Hs. rewrite in_app_iff.
    destruct (Hsynced _ _ Hs) as (? & ? & ? & ? & ?); auto 6.
Qed.

Lemma process_all_outputs_beside (all_files subs : list Path) (d : dict)
    (rest : list Path) (st st' : State FS) :
  grouped all_files d -> incl rest subs ->
  process_all cfg ratio exists_ spawn d rest st = Ok st' ->
  outputs_beside all_files subs st -> outputs_beside all_files subs st'.
Proof.
  intros Hd. revert st; induction rest as [|srt rest IH]; intros st Hincl Hrun Hst.
  - injection Hrun as <-; exact Hst.
  - cbn [process_all] in Hrun.
    destruct (process_turn d srt st) as (st1 & E & Hturn).
    { intros m Hm. destruct (Hd _ _ Hm) as (_ & Hmedia & _). now apply media_has_name. }
    rewrite E in Hrun; cbn [bind] in Hrun.
    apply (IH st1); [intros x Hx; apply Hincl; now right | exact Hrun |].
    apply (turn_outputs_beside all_files subs d srt st st1); auto.
    apply Hincl; now left.
Qed.

End Run.

Arguments recorded {FS} st.
Arguments tally {FS} st.
Arguments outputs_beside {FS} all_files subs st.

Lemma grouped_named (all_files : list Path) (d : dict) :
  grouped all_files d -> forall k m, In m (get d k []) -> name m <> [].
Proof.
  intros Hd k m Hm. destruct (Hd _ _ Hm) as (_ & Hmedia & _). now apply media_has_name.
Qed.


(** C6: when the matched media's output path exists and overwriting is
    off, the turn records the subtitle as skipped with reason "exists" and
    changes nothing else: no command is run and the file system is the same. *)
Theorem skip_leaves_output_untouched
    (cfg : Behavior) (ratio : str -> str -> float) (FS : Type)
    (exists_ : FS -> Path -> bool) (spawn : list str -> FS -> (Z * str * str) * FS)
    (d : dict) (srt : Path) (st : State FS) (m out_srt : Path)
    (Hmatch : best_media_match ratio srt (get d (parent srt) []) = Ok (Some m))
    (Hout : with_suffix m (py ".srt") = Ok out_srt)
    (Hexists : exists_ (fs st) out_srt = true)
    (Hoff : OVERWRITE cfg = false) :
  exists st',
    process cfg ratio exists_ spawn d srt st = Ok st' /\
    skipped st' = skipped st ++ [(srt, py "exists")] /\
    synced st' = synced st /\ failed st' = failed st /\
    calls st' = calls st /\ fs st' = fs st.
Proof.
  unfold process.
  destruct (get d (parent srt) []) as [|c cs] eqn:Ec.
  - pose proof (MatcherFacts.best_media_match_nil ratio srt) as E. congruence.
  - rewrite Hmatch; cbn [bind]. rewrite Hout; cbn [bind].
    rewrite Hexists, Hoff. cbn [negb andb].
    eexists; split; [reflexivity|]. repeat split.
Qed.

(** A concrete environment: the file system is the list of existing
    paths, and every command succeeds without touching it. *)
Definition demo_exists (files : list Path) (p : Path) : bool :=
  existsb (path_eqb p) files.

Definition demo_spawn (cmd : list str) (files : list Path)
    : (Z * str * str) * list Path :=
  ((0%Z, [], []), files).

Lemma skip_leaves_output_untouched_witness :
  exists st',
    process shipped (MatcherFacts.flat_ratio 1) demo_exists demo_spawn
      (group_media [MatcherFacts.demo_mp4]) MatcherFacts.demo_sub
      (mkState [srt_beside MatcherFacts.demo_mp4] [] [] [] []) = Ok st' /\
    skipped st' = [(MatcherFacts.demo_sub, py "exists")] /\
    synced st' = [] /\ failed st' = [] /\ calls st' = [] /\
    fs st' = [srt_beside MatcherFacts.demo_mp4].
Proof.
  apply (skip_leaves_output_untouched shipped (MatcherFacts.flat_ratio 1) (list Path)
           demo_exists demo_spawn (group_media [MatcherFacts.demo_mp4])
           MatcherFacts.demo_sub
           (mkState [srt_beside MatcherFacts.demo_mp4] [] [] [] [])
           MatcherFacts.demo_mp4 (srt_beside MatcherFacts.demo_mp4));
    vm_compute; reflexivity.
Defined.

End BatchFacts.

(** ** The single-pair run *)

Module SingleFacts.
Import PyStr Pathlib Plaintext Single PathFacts.

Section Run.

Variable FS : Type.
Variable read_text : FS -> Path -> option str.
Variable write_text : Path -> str -> FS -> FS.
Variable spawn : list str -> FS -> (Z * str * str) * FS.
Variable which : str -> bool.
Variable aeneas_importable : bool.
Variable executable : str.
Variable mkdtemp : FS -> Path * FS.
Variable rmtree : Path -> FS -> FS.

(** A command of the run for [media] and [subs] with output path [out]:
    the primary aligner writing to [out], the transcoder writing its scratch
    WAV, or the fallback aligner writing to [out]. *)
Definition writes_to (media subs out : Path) (cmd : list str) : Prop :=
  cmd = ffsubsync_cmd media subs out \/
  exists td,
    cmd = ffmpeg_cmd media (child td (py "audio.wav")) \/
    cmd = aeneas_cmd executable (child td (py "audio.wav")) (child td (py "text.txt")) out.

Definition only_adds (media subs out : Path) (w w' : World FS) : Prop :=
  forall cmd, In cmd (calls w') -> In cmd (calls w) \/ writes_to media subs out cmd.

Lemma only_adds_refl (media subs out : Path) (w : World FS) :
  only_adds media subs out w w.
Proof. intros cmd H; now left. Qed.

Lemma only_adds_trans (media subs out : Path) (w1 w2 w3 : World FS) :
  only_adds media subs out w1 w2 -> only_adds media subs out w2 w3 ->
  only_adds media subs out w1 w3.
Proof.
  intros H12 H23 cmd H. destruct (H23 cmd H) as [H' | H']; [now apply H12 | now right].
Qed.

Lemma run_calls (cmd : list str) (w : World FS) :
  calls (snd (run spawn cmd w)) = calls w ++ [cmd].
Proof. unfold run. now destruct (spawn cmd (fs w)) as [a f]. Qed.

Lemma align_with_ffsubsync_adds (media subs out : Path) (w : World FS) :
  only_adds media subs out w (snd (align_with_ffsubsync spawn media subs out w)).
Proof.
  unfold align_with_ffsubsync. fold (ffsubsync_cmd media subs out).
  pose proof (run_calls (ffsubsync_cmd media subs out) w) as Hc.
  destruct (run spawn (ffsubsync_cmd media subs out) w) as [[[code o] e] w'].
  cbn [snd] in Hc.
  assert (H : only_adds media subs out w w').
  { intros cmd Hin. rewrite Hc in Hin.
    apply in_app_iff in Hin as [Hin | [<- | []]]; [now left | right; now left]. }
  now destruct (negb (code =? 0)%Z).
Qed.

Lemma aeneas_steps_adds (td media subs out : Path) (w : World FS) :
  only_adds media subs out w
    (snd (aeneas_steps read_text write_text spawn which executable td media subs out w)).
Proof.
  unfold aeneas_steps, srt_to_plaintext.
  destruct (read_text (fs w) subs) as [text|]; [|apply only_adds_refl].
  set (w1 := mkWorld (write_text (child td (py "text.txt")) (plaintext text) (fs w)) (calls w)).
  assert (H1 : only_adds media subs out w w1) by (intros cmd H; now left).
  destruct (negb (have which (py "ffmpeg")) || negb (have which (py "ffprobe")));
    [exact H1|].
  fold (ffmpeg_cmd media (child td (py "audio.wav"))).
  pose proof (run_calls (ffmpeg_cmd media (child td (py "audio.wav"))) w1) as Hc2.
  destruct (run spawn (ffmpeg_cmd media (child td (py "audio.wav"))) w1)
    as [[[code o] e] w2]. cbn [snd] in Hc2.
  assert (H2 : only_adds media subs out w w2).
  { apply (only_adds_trans _ _ _ _ _ _ H1). intros cmd Hin. rewrite Hc2 in Hin.
    apply in_app_iff in Hin as [Hin | [<- | []]]; [now left|].
    right; right; exists td; now left. }
  destruct (negb (code =? 0)%Z); [exact H2|].
  fold (aeneas_cmd executable (child td (py "audio.wav")) (child td (py "text.txt")) out).
  pose proof (run_calls (aeneas_cmd executable (child td (py "audio.wav"))
                           (child td (py "text.txt")) out) w2) as Hc3.
  destruct (run spawn (aeneas_cmd executable (child td (py "audio.wav"))
                         (child td (py "text.txt")) out) w2)
    as [[[code' o'] e'] w3]. cbn [snd] in Hc3.
  assert (H3 : only_adds media subs out w w3).
  { apply (only_adds_trans _ _ _ _ _ _ H2). intros cmd Hin. rewrite Hc3 in Hin.
    apply in_app_iff in Hin as [Hin | [<- | []]]; [now left|].
    right; right; exists td; now right. }
  now destruct (negb (code' =? 0)%Z).
Qed.

Lemma maybe_align_with_aeneas_adds (media subs out : Path) (w : World FS) :
  only_adds media subs out w
    (snd (maybe_align_with_aeneas read_text write_text spawn which executable
            mkdtemp rmtree media subs out w)).
Proof.
  unfold maybe_align_with_aeneas.
  destruct (mkdtemp (fs w)) as [td fs1].
  pose proof (aeneas_steps_adds td media subs out (mkWorld fs1 (calls w))) as H.
  destruct (aeneas_steps read_text write_text spawn which executable td media subs out
              (mkWorld fs1 (calls w))) as [r w'].
  exact H.
Qed.

Lemma fallback_adds (media subs out : Path) (w : World FS) :
  let '(o, w') := fallback read_text write_text spawn which aeneas_importable executable
                    mkdtemp rmtree media subs out w in
  only_adds media subs out w w' /\
  (forall p, o = Done p \/ o = DoneAeneas p -> p = out).
Proof.
  unfold fallback. destruct aeneas_importable.
  - pose proof (maybe_align_with_aeneas_adds media subs out w) as H.
    destruct (maybe_align_with_aeneas read_text write_text spawn which executable
                mkdtemp rmtree media subs out w) as [[u|e] w']; cbn [snd] in H.
    + split; [exact H|]. intros p [E | E]; congruence.
    + split; [exact H|]. intros p [E | E]; discriminate.
  - split; [apply only_adds_refl|]. intros p [E | E]; discriminate.
Qed.

(** What [main] does once both files are picked. *)
Lemma main_outputs (media subs : Path) (w : World FS) :
  let '(r, w') := main read_text write_text spawn which aeneas_importable executable
                    mkdtemp rmtree (Some media) (Some subs) w in
  if str_eqb (name media) []
  then r = Raise ValueError /\ w' = w
  else exists o,
      r = Ok o /\
      (forall p, o = Done p \/ o = DoneAeneas p -> p = srt_beside media) /\
      only_adds media subs (srt_beside media) w w'.
Proof.
  unfold main. rewrite with_suffix_srt.
  destruct (str_eqb (name media) []); [now split|].
  destruct (have which (py "ffsubsync")).
  - pose proof (align_with_ffsubsync_adds media subs (srt_beside media) w) as H1.
    destruct (align_with_ffsubsync spawn media subs (srt_beside media) w) as [[u|e] w1];
      cbn [snd] in H1.
    + eexists; split; [reflexivity|]. split; [|exact H1].
      intros p [E | E]; congruence.
    + pose proof (fallback_adds media subs (srt_beside media) w1) as H2.
      destruct (fallback read_text write_text spawn which aeneas_importable executable
                  mkdtemp rmtree media subs (srt_beside media) w1) as [o w2].
      destruct H2 as [H2 Ho]. eexists; split; [reflexivity|]. split; [exact Ho|].
      exact (only_adds_trans _ _ _ _ _ _ H1 H2).
  - pose proof (fallback_adds media subs (srt_beside media) w) as H2.
    destruct (fallback read_text write_text spawn which aeneas_importable executable
                mkdtemp rmtree media subs (srt_beside media) w) as [o w2].
    destruct H2 as [H2 Ho]. eexists; split; [reflexivity|]. split; [exact Ho | exact H2].
Qed.

End Run.

Arguments only_adds {FS} executable media subs out w w'.

End SingleFacts.

(** ** Where the output goes *)

Module OutputNaming.
Import PyStr Pathlib PathFacts.

(** C1: the output path is the media path with its extension replaced by
    [.srt], [srt_beside media], a function of the media path alone: it lies in
    the media's directory, has the media's stem and the suffix [.srt].  In a
    batch run every command is the aligner writing to that path for a media
    file of the subtitle's directory, and every synced pair was aligned so; in
    a single-pair run every command that names an output names that path, and
    so does the outcome. *)
Theorem output_named_after_media :
  (forall m, name m <> [] ->
     with_suffix m (py ".srt") = Ok (srt_beside m) /\
     parent (srt_beside m) = parent m /\
     stem (srt_beside m) = stem m /\
     suffix (srt_beside m) = py ".srt") /\
  (forall (cfg : Batch.Behavior) (ratio : str -> str -> float) (FS : Type)
          (exists_ : FS -> Path -> bool) (glob_files rglob_files : FS -> Path -> list Path)
          (spawn : list str -> FS -> (Z * str * str) * FS)
          (have_ffsubsync : bool) (folder : option Path) (fs0 : FS) (st : Batch.State FS),
     Batch.main cfg ratio exists_ glob_files rglob_files spawn have_ffsubsync folder fs0
     = Ok (Batch.Summary st) ->
     exists base, folder = Some base /\
       let all_files := Batch.gather_files cfg glob_files rglob_files
                          (Batch.mkState fs0 [] [] [] []) base in
       BatchFacts.outputs_beside all_files
         (filter (Batch.suffix_in Batch.SUB_EXTS) all_files) st /\
       forall srt m, In (srt, m) (Batch.synced st) -> name m <> []) /\
  (forall (FS : Type) (read_text : FS -> Path -> option str)
          (write_text : Path -> str -> FS -> FS)
          (spawn : list str -> FS -> (Z * str * str) * FS) (which : str -> bool)
          (aeneas_importable : bool) (executable : str) (mkdtemp : FS -> Path * FS)
          (rmtree : Path -> FS -> FS) (media subs : Path) (w : Single.World FS),
     name media <> [] ->
     exists o w',
       Single.main read_text write_text spawn which aeneas_importable executable
         mkdtemp rmtree (Some media) (Some subs) w = (Ok o, w') /\
       (forall p, o = Single.Done p \/ o = Single.DoneAeneas p -> p = srt_beside media) /\
       SingleFacts.only_adds executable media subs (srt_beside media) w w').
Proof.
  split; [|split].
  - intros m Hm. rewrite with_suffix_srt.
    destruct (str_eqb (name m) []) eqn:E; [apply str_eqb_eq in E; contradiction|].
    destruct (srt_beside_parts m) as (_ & Hp & _ & Hs).
    destruct (Hs Hm). auto.
  - intros cfg ratio FS exists_ glob_files rglob_files spawn have_ffsubsync folder fs0 st.
    unfold Batch.main. destruct have_ffsubsync; cbn [negb]; [|discriminate].
    destruct folder as [base|]; [|discriminate].
    set (st0 := Batch.mkState fs0 [] [] [] []).
    set (all_files := Batch.gather_files cfg glob_files rglob_files st0 base).
    destruct (filter (Batch.suffix_in Batch.SUB_EXTS) all_files) as [|s0 subs] eqn:Esubs;
      [discriminate|].
    destruct (Batch.process_all cfg ratio exists_ spawn (Batch.group_media all_files)
                (s0 :: subs) st0) as [st'|e] eqn:E; cbn [bind]; [|discriminate].
    intros [= <-]. exists base; split; [reflexivity|]. cbv zeta.
    assert (H : BatchFacts.outputs_beside all_files (s0 :: subs) st').
    { apply (BatchFacts.process_all_outputs_beside cfg ratio FS exists_ spawn
               all_files (s0 :: subs) (Batch.group_media all_files) (s0 :: subs) st0 st').
      - apply BatchFacts.group_media_grouped.
      - apply incl_refl.
      - exact E.
      - split; [intros cmd [] | intros srt m []]. }
    fold st0. fold all_files. rewrite Esubs.
    split; [exact H|].
    intros srt m Hin. destruct H as [_ H].
    destruct (H _ _ Hin) as (_ & _ & Hmedia & _). now apply BatchFacts.media_has_name.
  - intros FS read_text write_text spawn which aeneas_importable executable mkdtemp rmtree
           media subs w Hname.
    pose proof (SingleFacts.main_outputs FS read_text write_text spawn which
                  aeneas_importable executable mkdtemp rmtree media subs w) as H.
    destruct (Single.main read_text write_text spawn which aeneas_importable executable
                mkdtemp rmtree (Some media) (Some subs) w) as [r w'].
    destruct (str_eqb (name media) []) eqn:E; [apply str_eqb_eq in E; contradiction|].
    destruct H as (o & -> & Ho & Hadds). exists o, w'. auto.
Qed.

End OutputNaming.


(** ** Regular expressions *)

Module ReFacts.
Import PyStr Re PlaintextSpec.

Lemma orelse_none_r {A : Type} (a : option A) : orelse a None = a.
Proof. now destruct a. Qed.

(** Exactly [n] characters of the class [cls] at the head of [s]. *)
Fixpoint take (n : nat) (cls : ascii -> bool) (s : str) : option str :=
  match n with
  | 0 => Some s
  | S n' =>
      match s with
      | c :: s' => if cls c then take n' cls s' else None
      | [] => None
      end
  end.

Lemma rep_none_left (cls : ascii -> bool) (k : bool -> str -> option str)
    (bol : bool) (s : str) :
  rep true cls k 0 (Some 0) bol s = k bol s.
Proof.
  destruct s as [|c s]; [reflexivity|].
  cbn [rep room]. now rewrite andb_false_r.
Qed.

Lemma rep_exactly (cls : ascii -> bool) (k : bool -> str -> option str)
    (n : nat) (bol : bool) (s : str) :
  rep true cls k (S n) (Some (S n)) bol s = and_then (take (S n) cls s) (k false).
Proof.
  revert bol s; induction n as [|n IH]; intros bol s;
    (destruct s as [|c s]; [reflexivity|]);
    cbn [rep room]; rewrite andb_true_r, orelse_none_r;
    cbn [take]; (destruct (cls c); [|reflexivity]);
    cbn [Nat.pred option_map].
  - apply rep_none_left.
  - apply IH.
Qed.

(** A greedy run of the class [cls] before a continuation that refuses
    every text starting in [cls]: the run swallows the whole block. *)
Fixpoint skip_class (cls : ascii -> bool) (s : str) : str :=
  match s with
  | c :: s' => if cls c then skip_class cls s' else s
  | [] => []
  end.

Lemma rep_greedy_star (cls : ascii -> bool) (k : bool -> str -> option str)
    (bol : bool) (s : str) :
  (forall b t, k b t = k false t) ->
  (forall b c t, cls c = true -> k b (c :: t) = None) ->
  rep true cls k 0 None bol s = k false (skip_class cls s).
Proof.
  intros Hbol Hrefuse. revert bol; induction s as [|c s IH]; intros bol.
  - cbn [rep skip_class orelse]. apply Hbol.
  - cbn [rep skip_class room]. rewrite andb_true_r.
    destruct (cls c) eqn:E.
    + cbn [Nat.pred option_map]. rewrite IH, (Hrefuse bol c s E). apply orelse_none_r.
    + cbn [orelse]. apply Hbol.
Qed.

Lemma rep_greedy_plus (cls : ascii -> bool) (k : bool -> str -> option str)
    (bol : bool) (s : str) :
  (forall b t, k b t = k false t) ->
  (forall b c t, cls c = true -> k b (c :: t) = None) ->
  rep true cls k 1 None bol s =
  match s with
  | c :: s' => if cls c then k false (skip_class cls s') else None
  | [] => None
  end.
Proof.
  intros Hbol Hrefuse. destruct s as [|c s]; [reflexivity|].
  cbn [rep room]. rewrite andb_true_r, orelse_none_r.
  destruct (cls c); [|reflexivity].
  cbn [Nat.pred option_map]. now apply rep_greedy_star.
Qed.

Lemma exec_lit_bol (c : ascii) (r : regex) (b : bool) (s : str) :
  exec (Lit c :: r) b s = exec (Lit c :: r) false s.
Proof. reflexivity. Qed.

End ReFacts.

(** ** Stripping an SRT file *)

Module PlaintextFacts.
Import PyStr Re Plaintext PlaintextSpec ReFacts PyStrFacts.

Definition lit (c : ascii) (s : str) : option str :=
  match s with
  | x :: s' => if Ascii.eqb x c then Some s' else None
  | [] => None
  end.

Lemma exec_lit (c : ascii) (r : regex) (b : bool) (s : str) :
  exec (Lit c :: r) b s = and_then (lit c s) (exec r false).
Proof. destruct s as [|x s]; [reflexivity|]. cbn [exec lit]. now destruct (Ascii.eqb x c). Qed.

Lemma exec_exactly (n : nat) (cls : ascii -> bool) (r : regex) (b : bool) (s : str) :
  exec (exactly (S n) cls :: r) b s = and_then (take (S n) cls s) (exec r false).
Proof. cbn [exec exactly]. apply rep_exactly. Qed.

(** The clock pattern read from left to right. *)
Definition clock_seq (s : str) : option str :=
  and_then (and_then (and_then (and_then (and_then (and_then
    (take 2 digit s) (lit ":")) (take 2 digit)) (lit ":")) (take 2 digit)) (lit ","))
    (take 3 digit).

Lemma and_then_assoc (r : option str) (f g : str -> option str) :
  and_then (and_then r f) g = and_then r (fun s => and_then (f s) g).
Proof. now destruct r. Qed.

Lemma exec_clock (r : regex) (b : bool) (s : str) :
  exec (clock_re ++ r) b s = and_then (clock_seq s) (exec r false).
Proof.
  unfold clock_re, clock_seq. cbn [app].
  rewrite exec_exactly. rewrite !and_then_assoc.
  destruct (take 2 digit s) as [s1|]; [|reflexivity]. cbn [and_then].
  rewrite exec_lit. destruct (lit ":" s1) as [s2|]; [|reflexivity]. cbn [and_then].
  rewrite exec_exactly. destruct (take 2 digit s2) as [s3|]; [|reflexivity]. cbn [and_then].
  rewrite exec_lit. destruct (lit ":" s3) as [s4|]; [|reflexivity]. cbn [and_then].
  rewrite exec_exactly. destruct (take 2 digit s4) as [s5|]; [|reflexivity]. cbn [and_then].
  rewrite exec_lit. destruct (lit "," s5) as [s6|]; [|reflexivity]. cbn [and_then].
  now rewrite exec_exactly.
Qed.

Ltac decide_bool b :=
  destruct b eqn:?; cbn [andb and_then take lit]; rewrite ?andb_false_r;
  try reflexivity; try congruence.

Ltac decide_chars :=
  cbn [take and_then lit forallb andb];
  try reflexivity;
  repeat match goal with
         | |- context [between 48 57 ?c] => decide_bool (between 48 57 c)
         | |- context [Ascii.eqb ?c ?d] => decide_bool (Ascii.eqb c d)
         end.

Lemma clock_seq_clock (s : str) : clock_seq s = clock s.
Proof.
  unfold clock_seq, clock, digit, decimal.
  do 12 (destruct s as [|? s]; [decide_chars|]).
  decide_chars.
Qed.

Lemma skip_space_lstrip (s : str) : skip_class space s = lstrip s.
Proof.
  induction s as [|c s IH]; [reflexivity|]. cbn [skip_class lstrip]. unfold space at 1.
  destruct (isspace c); [exact IH | reflexivity].
Qed.

Lemma exec_gap (r : regex) (b : bool) (s : str) :
  (forall b t, exec r b t = exec r false t) ->
  (forall b c t, isspace c = true -> exec r b (c :: t) = None) ->
  exec (plus space :: r) b s = and_then (gap s) (exec r false).
Proof.
  intros Hbol Hrefuse. cbn [exec plus].
  rewrite rep_greedy_plus by assumption.
  destruct s as [|c s]; [reflexivity|]. cbn [gap]. unfold space at 1.
  destruct (isspace c); [|reflexivity]. now rewrite skip_space_lstrip.
Qed.

Lemma space_not_dash (c : ascii) : isspace c = true -> Ascii.eqb c "-" = false.
Proof. NormalizeFacts.each_char c. Qed.

Lemma space_not_digit (c : ascii) : isspace c = true -> digit c = false.
Proof. NormalizeFacts.each_char c. Qed.

Lemma exec_arrow (r : regex) (b : bool) (s : str) :
  exec (Lit "-" :: Lit "-" :: Lit ">" :: r) b s = and_then (arrow s) (exec r false).
Proof.
  unfold arrow.
  do 3 (destruct s as [|? s]; [cbn [exec]; repeat
          match goal with |- context [Ascii.eqb ?c ?d] => destruct (Ascii.eqb c d) end;
          reflexivity|]).
  cbn [exec].
  repeat match goal with
         | |- context [Ascii.eqb ?c ?d] => destruct (Ascii.eqb c d); cbn [andb and_then]
         end; reflexivity.
Qed.

Lemma exec_eol (b : bool) (s : str) :
  exec [Eol] b s = if at_end s then Some s else None.
Proof. reflexivity. Qed.

(** The timestamp pattern accepts the lines that are a timestamp range,
    possibly followed by one line feed. *)
Lemma matches_patt_ts (l : str) :
  matches patt_ts l =
  match timestamp_range l with
  | Some rest => at_end rest
  | None => false
  end.
Proof.
  unfold matches, patt_ts, timestamp_range.
  change ([Bol] ++ clock_re ++
          [plus space; Lit "-"; Lit "-"; Lit ">"; plus space]%char ++ clock_re ++ [Eol])
    with (Bol :: clock_re ++
          plus space :: Lit "-"%char :: Lit "-"%char :: Lit ">"%char :: plus space ::
          clock_re ++ [Eol]).
  cbn [exec]. rewrite exec_clock, clock_seq_clock.
  destruct (clock l) as [s1|]; [|reflexivity]. cbn [and_then].
  rewrite exec_gap;
    [| intros; apply exec_lit_bol
     | intros b c t Hc; cbn [exec]; now rewrite (space_not_dash c Hc)].
  destruct (gap s1) as [s2|]; [|reflexivity]. cbn [and_then].
  rewrite exec_arrow.
  destruct (arrow s2) as [s3|]; [|reflexivity]. cbn [and_then].
  rewrite exec_gap;
    [| intros; now rewrite !exec_clock
     | intros b c t Hc; rewrite exec_clock; unfold clock_seq; cbn [take];
       now rewrite (space_not_digit c Hc)].
  destruct (gap s3) as [s4|]; [|reflexivity]. cbn [and_then].
  rewrite exec_clock, clock_seq_clock.
  destruct (clock s4) as [s5|]; [|reflexivity]. cbn [and_then].
  rewrite exec_eol. now destruct (at_end s5).
Qed.

(** [r] is what is left of [s] behind a non-empty head. *)
Definition behind (r s : str) : Prop := exists p, p <> [] /\ s = p ++ r.

Lemma behind_trans (a b c : str) : behind a b -> behind b c -> behind a c.
Proof.
  intros (p & Hp & ->) (q & Hq & ->). exists (q ++ p). split.
  - destruct q; [congruence | discriminate].
  - now rewrite app_assoc.
Qed.

Lemma lstrip_tail (s : str) : exists p, s = p ++ lstrip s.
Proof.
  induction s as [|c s [p Hp]]; [now exists []|]. cbn [lstrip].
  destruct (isspace c); [|now exists []].
  exists (c :: p). cbn [app]. now rewrite <- Hp.
Qed.

Lemma clock_behind (s r : str) : clock s = Some r -> behind r s.
Proof.
  unfold clock.
  do 12 (destruct s as [|? s]; [discriminate|]).
  match goal with |- (if ?c then _ else _) = _ -> _ => destruct c end; [|discriminate].
  intros [= <-]. eexists (_ :: _ :: _ :: _ :: _ :: _ :: _ :: _ :: _ :: _ :: _ :: [_]).
  split; [discriminate | reflexivity].
Qed.

Lemma gap_behind (s r : str) : gap s = Some r -> behind r s.
Proof.
  destruct s as [|c s]; cbn [gap]; [discriminate|].
  destruct (isspace c); [|discriminate]. intros [= <-].
  destruct (lstrip_tail s) as [p Hp]. exists (c :: p). split; [discriminate|].
  cbn [app]. now rewrite <- Hp.
Qed.

Lemma arrow_behind (s r : str) : arrow s = Some r -> behind r s.
Proof.
  unfold arrow. do 3 (destruct s as [|? s]; [discriminate|]).
  match goal with |- (if ?c then _ else _) = _ -> _ => destruct c end; [|discriminate].
  intros [= <-]. eexists [_; _; _]. split; [discriminate | reflexivity].
Qed.

Lemma timestamp_range_behind (l r : str) : timestamp_range l = Some r -> behind r l.
Proof.
  unfold timestamp_range.
  destruct (clock l) as [s1|] eqn:E1; [|discriminate]. cbn [and_then].
  destruct (gap s1) as [s2|] eqn:E2; [|discriminate]. cbn [and_then].
  destruct (arrow s2) as [s3|] eqn:E3; [|discriminate]. cbn [and_then].
  destruct (gap s3) as [s4|] eqn:E4; [|discriminate]. cbn [and_then].
  intros E5.
  apply clock_behind in E1, E5. apply gap_behind in E2, E4. apply arrow_behind in E3.
  eauto using behind_trans.
Qed.

(** A stripped line does not end in whitespace. *)
Lemma strip_last (raw p : str) (c : ascii) :
  strip raw = p ++ [c] -> isspace c = false.
Proof.
  unfold strip, rstrip. intros H.
  apply (f_equal (@rev ascii)) in H. rewrite rev_involutive, rev_app_distr in H.
  cbn [rev app] in H.
  destruct (NormalizeFacts.lstrip_head (rev (lstrip raw))) as [E | (x & t & E & Hx)];
    rewrite E in H; [discriminate|].
  now injection H as -> _.
Qed.

(** On the lines of the loop, which are stripped, the timestamp pattern
    accepts exactly the timestamp-range lines. *)
Lemma matches_patt_ts_stripped (raw : str) :
  matches patt_ts (strip raw) = is_timestamp_line (strip raw).
Proof.
  rewrite matches_patt_ts. unfold is_timestamp_line.
  destruct (timestamp_range (strip raw)) as [rest|] eqn:E; [|reflexivity].
  destruct rest as [|c [|c' rest]]; try reflexivity.
  cbn [at_end]. destruct (Ascii.eqb_spec c "010"%char) as [-> | _]; [|reflexivity].
  apply timestamp_range_behind in E as (p & _ & E).
  apply strip_last in E. discriminate.
Qed.

Lemma isdigit_index_line (l : str) : isdigit l = is_index_line l.
Proof. destruct l; reflexivity. Qed.

(** *** Tags and brace blocks *)

Lemma exec_close_tag (s : str) (b : bool) :
  exec [Lit ">"%char] b (skip_class (other_than ">") s) = after ">" s.
Proof.
  induction s as [|c s IH]; [reflexivity|].
  cbn [skip_class after]. unfold other_than at 1.
  destruct (Ascii.eqb c ">") eqn:E; cbn [negb].
  - cbn [exec]. now rewrite E.
  - exact IH.
Qed.

Lemma exec_tag_body (b : bool) (s : str) :
  exec [plus (other_than ">"); Lit ">"%char] b s =
  match s with
  | c :: s' => if other_than ">" c then after ">" s' else None
  | [] => None
  end.
Proof.
  cbn [exec plus]. rewrite rep_greedy_plus.
  - destruct s as [|c s]; [reflexivity|].
    destruct (other_than ">" c); [|reflexivity]. exact (exec_close_tag s false).
  - reflexivity.
  - intros b' c t Hc. cbn [exec]. unfold other_than in Hc.
    now destruct (Ascii.eqb c ">").
Qed.

Lemma exec_rep (g : bool) (lo : nat) (hi : option nat) (cls : ascii -> bool)
    (r : regex) (b : bool) (s : str) :
  exec (Rep g lo hi cls :: r) b s = rep g cls (exec r) lo hi b s.
Proof. reflexivity. Qed.

Lemma rep_optional (x : ascii) (k : bool -> str -> option str) (b : bool) (s : str) :
  rep true (Ascii.eqb x) k 0 (Some 1) b s =
  match s with
  | c :: s' => if Ascii.eqb x c then orelse (k false s') (k b s) else k b s
  | [] => k b s
  end.
Proof.
  destruct s as [|c s]; [reflexivity|].
  cbn [rep room]. rewrite andb_true_r.
  destruct (Ascii.eqb x c); [|reflexivity].
  cbn [Nat.pred option_map]. now rewrite rep_none_left.
Qed.

Lemma exec_tag_re (b : bool) (s : str) : exec tag_re b s = tag_at s.
Proof.
  unfold tag_re, tag_at, optional.
  rewrite exec_lit. destruct s as [|o s]; [reflexivity|]. cbn [lit].
  destruct (Ascii.eqb o "<"); cbn [andb and_then]; [|now destruct s].
  rewrite exec_rep, rep_optional.
  destruct s as [|c s]; [now rewrite exec_tag_body|].
  rewrite !exec_tag_body. fold (other_than ">" c).
  destruct (Ascii.eqb_spec "/"%char c) as [<- | _]; [|reflexivity].
  change (other_than ">" "/") with true. cbv iota.
  destruct s as [|c' s]; [reflexivity|].
  cbn [after]. unfold other_than.
  destruct (Ascii.eqb c' ">"); cbn [negb orelse]; [reflexivity|].
  now destruct (after ">" s).
Qed.

Lemma exec_lazy_brace (b : bool) (s : str) :
  rep false dot (exec [Lit "}"%char]) 0 None b s = brace_close s.
Proof.
  revert b; induction s as [|c s IH]; intros b; [reflexivity|].
  cbn [rep exec brace_close room]. rewrite andb_true_r.
  destruct (Ascii.eqb c "}"); [reflexivity|]. cbn [orelse].
  unfold dot, other_than. fold LF.
  destruct (Ascii.eqb c LF); cbn [negb]; [reflexivity|].
  cbn [Nat.pred option_map]. apply IH.
Qed.

Lemma exec_brace_re (b : bool) (s : str) : exec brace_re b s = brace_at s.
Proof.
  unfold brace_re, brace_at, lazy_star.
  rewrite exec_lit. destruct s as [|o s]; [reflexivity|]. cbn [lit].
  destruct (Ascii.eqb o "{"); cbn [andb and_then]; [|now destruct s].
  rewrite exec_lit. destruct s as [|c s]; [reflexivity|]. cbn [lit].
  destruct (Ascii.eqb c "\"); [|reflexivity]. cbn [and_then].
  rewrite exec_rep. apply exec_lazy_brace.
Qed.

(** *** Substitution by the empty string *)

Section Deleting.

Variable block_at : str -> option str.
Hypothesis block_at_shorter :
  forall s r, block_at s = Some r -> List.length r < List.length s.
Hypothesis block_at_tail : forall s r, block_at s = Some r -> exists p, s = p ++ r.

Lemma delete_all_cons (c : ascii) (s : str) :
  delete_all block_at block_at_shorter (c :: s) =
  match block_at (c :: s) with
  | Some rest => delete_all block_at block_at_shorter rest
  | None => c :: delete_all block_at block_at_shorter s
  end.
Proof.
  simp delete_all.
  destruct (inspect (block_at (c :: s))) as [[rest|] E]; simp delete_all; now rewrite E.
Qed.

Variable r : regex.
Hypothesis exec_block : forall b s, exec r b s = block_at s.

Lemma sub_from_skipn (s : str) (n : nat) (b : bool) :
  sub_from r n b s = sub_from r 0 false (skipn n s).
Proof.
  revert n b; induction s as [|c s IH]; intros n b.
  - rewrite skipn_nil. now destruct n.
  - destruct n as [|n]; [|exact (IH n false)].
    cbn [skipn sub_from]. now rewrite !exec_block.
Qed.

Lemma skipn_tail (p rest s : str) :
  s = p ++ rest -> skipn (List.length s - List.length rest) s = rest.
Proof.
  intros ->. rewrite length_app.
  replace (List.length p + List.length rest - List.length rest) with (List.length p) by lia.
  rewrite skipn_app, Nat.sub_diag, skipn_all. reflexivity.
Qed.

(** [re.sub(r, "", s)] deletes the blocks of [s] from left to right. *)
Lemma sub_delete_all (s : str) :
  sub r s = delete_all block_at block_at_shorter s.
Proof.
  unfold sub. rewrite (sub_from_skipn s 0 true). cbn [skipn].
  induction s as [s IH] using (well_founded_induction
                                 (well_founded_ltof _ (@List.length ascii))).
  unfold ltof in IH.
  destruct s as [|c s]; [now simp delete_all|].
  rewrite delete_all_cons. cbn [sub_from]. rewrite exec_block.
  destruct (block_at (c :: s)) as [rest|] eqn:E.
  - pose proof (block_at_shorter _ _ E) as Hlt.
    destruct (block_at_tail _ _ E) as [p Hp].
    pose proof (skipn_tail p rest (c :: s) Hp) as Hskip.
    destruct (List.length (c :: s) - List.length rest) as [|n] eqn:En; [lia|].
    cbn [skipn] in Hskip. rewrite sub_from_skipn, Hskip. now apply IH.
  - f_equal. apply IH. cbn [List.length]. lia.
Qed.

(** Deleting blocks adds no character. *)
Lemma in_delete_all (x : ascii) (s : str) :
  In x (delete_all block_at block_at_shorter s) -> In x s.
Proof.
  induction s as [s IH] using (well_founded_induction
                                 (well_founded_ltof _ (@List.length ascii))).
  unfold ltof in IH.
  destruct s as [|c s]; [now simp delete_all|].
  rewrite delete_all_cons.
  destruct (block_at (c :: s)) as [rest|] eqn:E.
  - intros Hx. apply IH in Hx; [|exact (block_at_shorter _ _ E)].
    destruct (block_at_tail _ _ E) as [p ->]. apply in_app_iff; now right.
  - intros [<- | Hx]; [now left | right]. apply IH; [cbn [List.length]; lia | exact Hx].
Qed.

End Deleting.

Lemma after_tail (x : ascii) (s r : str) : after x s = Some r -> exists p, s = p ++ r.
Proof.
  revert r; induction s as [|c s IH]; intros r; cbn [after]; [discriminate|].
  destruct (Ascii.eqb c x).
  - intros [= <-]. now exists [c].
  - intros H. destruct (IH _ H) as [p ->]. now exists (c :: p).
Qed.

Lemma tag_at_tail (s r : str) : tag_at s = Some r -> exists p, s = p ++ r.
Proof.
  destruct s as [|o [|c s]]; cbn [tag_at]; try discriminate.
  destruct (Ascii.eqb o "<" && negb (Ascii.eqb c ">")); [|discriminate].
  intros H. destruct (after_tail _ _ _ H) as [p ->]. now exists (o :: c :: p).
Qed.

Lemma brace_close_tail (s r : str) : brace_close s = Some r -> exists p, s = p ++ r.
Proof.
  revert r; induction s as [|c s IH]; intros r; cbn [brace_close]; [discriminate|].
  destruct (Ascii.eqb c "}").
  - intros [= <-]. now exists [c].
  - destruct (Ascii.eqb c LF); [discriminate|].
    intros H. destruct (IH _ H) as [p ->]. now exists (c :: p).
Qed.

Lemma brace_at_tail (s r : str) : brace_at s = Some r -> exists p, s = p ++ r.
Proof.
  destruct s as [|o [|c s]]; cbn [brace_at]; try discriminate.
  destruct (Ascii.eqb o "{" && Ascii.eqb c "\"); [|discriminate].
  intros H. destruct (brace_close_tail _ _ H) as [p ->]. now exists (o :: c :: p).
Qed.

Lemma sub_tag_re (l : str) : sub tag_re l = drop_tags l.
Proof. apply sub_delete_all; [apply tag_at_tail | apply exec_tag_re]. Qed.

Lemma sub_brace_re (l : str) : sub brace_re l = drop_braces l.
Proof. apply sub_delete_all; [apply brace_at_tail | apply exec_brace_re]. Qed.

(** *** The loop *)

Lemma spoken_guard (raw : str) :
  str_eqb (strip raw) [] || isdigit (strip raw) || matches patt_ts (strip raw)
  = negb (is_spoken (strip raw)).
Proof.
  rewrite matches_patt_ts_stripped, isdigit_index_line. unfold is_spoken.
  destruct (str_eqb (strip raw) []), (is_index_line (strip raw)),
    (is_timestamp_line (strip raw)); reflexivity.
Qed.

Lemma collect_spoken (raws : list str) (lines : list str) :
  collect raws lines =
  lines ++ map (fun l => drop_braces (drop_tags l)) (filter is_spoken (map strip raws)).
Proof.
  revert lines; induction raws as [|raw raws IH]; intros lines.
  - cbn [collect map filter]. now rewrite app_nil_r.
  - cbn [collect map filter]. rewrite spoken_guard.
    destruct (is_spoken (strip raw)); cbn [negb].
    + rewrite IH, sub_tag_re, sub_brace_re, <- app_assoc. reflexivity.
    + apply IH.
Qed.

(** A raw line holds no line feed except possibly a last one. *)
Definition one_line (raw : str) : Prop :=
  exists body, ~ In LF body /\ (raw = body \/ raw = body ++ [LF]).

Lemma lines_from_one_line (s cur : str) :
  ~ In LF cur -> Forall one_line (lines_from cur s).
Proof.
  revert cur; induction s as [|c s IH]; intros cur Hcur; cbn [lines_from].
  - destruct cur; constructor; [|constructor]. exists (a :: cur); auto.
  - destruct (Ascii.eqb_spec c LF) as [-> | Hc].
    + constructor; [exists cur; auto | apply IH; intros []].
    + apply IH. intros H. apply in_app_iff in H as [H | [H | []]]; [auto | congruence].
Qed.

Lemma in_lstrip (x : ascii) (s : str) : In x (lstrip s) -> In x s.
Proof.
  induction s as [|c s IH]; [auto|]. cbn [lstrip].
  destruct (isspace c); [intros H; right; auto | auto].
Qed.

Lemma in_strip (x : ascii) (s : str) : In x (strip s) -> In x s.
Proof.
  unfold strip, rstrip. intros H.
  apply in_rev, in_lstrip, in_rev in H. now apply in_lstrip.
Qed.

Lemma lstrip_snoc_space (s : str) (c : ascii) :
  isspace c = true ->
  lstrip (s ++ [c]) = match lstrip s with [] => [] | t => t ++ [c] end.
Proof.
  intros Hc; induction s as [|x s IH]; cbn [app lstrip].
  - now rewrite Hc.
  - destruct (isspace x); [exact IH | reflexivity].
Qed.

Lemma strip_snoc_space (s : str) (c : ascii) :
  isspace c = true -> strip (s ++ [c]) = strip s.
Proof.
  intros Hc. unfold strip. rewrite lstrip_snoc_space by assumption.
  destruct (lstrip s) as [|x t]; [reflexivity|].
  now apply rstrip_snoc_space.
Qed.

Lemma one_line_strip (raw : str) : one_line raw -> ~ In LF (strip raw).
Proof.
  intros (body & Hbody & [-> | ->]) H.
  - now apply in_strip in H.
  - rewrite strip_snoc_space in H by reflexivity. now apply in_strip in H.
Qed.

Lemma spoken_lines_one_each (text : str) :
  Forall (fun l => ~ In LF l) (spoken_lines text).
Proof.
  unfold spoken_lines, file_lines.
  pose proof (lines_from_one_line (universal_newlines text) [] (fun H => H)) as Hraw.
  induction Hraw as [|raw raws Hone _ IH]; [constructor|].
  cbn [map filter]. destruct (is_spoken (strip raw)); [|exact IH].
  cbn [map]. constructor; [|exact IH].
  intros H. unfold drop_braces, drop_tags in H.
  apply in_delete_all in H; [|apply brace_at_tail].
  apply in_delete_all in H; [|apply tag_at_tail].
  exact (one_line_strip raw Hone H).
Qed.

(** A small SRT file. *)
Definition demo_srt : str :=
  py "1" ++ [LF] ++ py "00:00:01,000 --> 00:00:02,500" ++ [LF]
  ++ py "<i>Hello</i> {\an8}world" ++ [CR; LF] ++ [LF]
  ++ py "2" ++ [LF] ++ py "00:00:03,000 --> 00:00:04,000" ++ [LF]
  ++ py "  Second <b>line</b>  " ++ [LF].


End PlaintextFacts.

(** * Further properties *)

(** ** The shape of a normalised stem *)

Module NormalizeShape.
Import PyStr PyStrFacts Normalize NormalizeFacts.

Lemma clean_char_shape (c : ascii) :
  is_separator (clean_char c) = false /\
  lower_char (clean_char c) = clean_char c /\
  isspace (clean_char c) = (is_separator c || isspace c).
Proof. each_char c; repeat split; reflexivity. Qed.

Lemma length_lstrip (s : str) : List.length (lstrip s) <= List.length s.
Proof.
  induction s as [|c s IH]; [auto|]. cbn [lstrip].
  destruct (isspace c); cbn [List.length]; lia.
Qed.

Lemma length_strip (s : str) : List.length (strip s) <= List.length s.
Proof.
  unfold strip, rstrip. rewrite length_rev.
  pose proof (length_lstrip (rev (lstrip s))) as H. rewrite length_rev in H.
  pose proof (length_lstrip s). lia.
Qed.

Lemma length_collapse_runs (b : bool) (s : str) :
  List.length (collapse_runs b s) <= List.length s.
Proof.
  revert b; induction s as [|c s IH]; intros b; [auto|]. cbn [collapse_runs].
  destruct (isspace c); [destruct b|]; cbn [List.length];
    specialize (IH true) as H1; specialize (IH false) as H2; lia.
Qed.

Lemma collapse_join_words (ws : list str) (b : bool) :
  Forall word ws ->
  collapse_runs b (join [" "%char] ws) = join [" "%char] ws.
Proof.
  revert b; induction ws as [|w ws IH]; intros b H; [reflexivity|].
  inversion H as [|? ? [Hne Hw] Hws]; subst.
  destruct ws as [|w' ws].
  - cbn [join]. rewrite <- (app_nil_r w) at 1.
    rewrite collapse_nospace by assumption. cbn [collapse_runs]. apply app_nil_r.
  - rewrite join_cons by discriminate.
    rewrite collapse_nospace by assumption. f_equal.
    change ([" "%char] ++ join [" "%char] (w' :: ws))
      with (" "%char :: join [" "%char] (w' :: ws)).
    cbn [collapse_runs]. change (isspace " ") with true. cbv iota. f_equal.
    now apply IH.
Qed.


Lemma split_from_nil (s : str) :
  split_from [] s = [] <-> Forall (fun c => isspace c = true) s.
Proof.
  induction s as [|c s IH]; cbn [split_from].
  - split; [constructor | reflexivity].
  - destruct (isspace c) eqn:E.
    + rewrite IH. split; [now constructor | now inversion 1].
    + split.
      * intros H. now destruct (split_from_nonempty ([] ++ [c]) s ltac:(discriminate)).
      * inversion 1; congruence.
Qed.

(** X2: the normalised stem is empty exactly when the stem is made of
    separators and whitespace only (the empty stem included). *)
Theorem normalize_stem_empty (stem : str) :
  normalize_stem stem = [] <->
  Forall (fun c => is_separator c = true \/ isspace c = true) stem.
Proof.
  rewrite normalize_stem_words.
  assert (Hjoin : forall ws, Forall word ws -> (join [" "%char] ws = [] <-> ws = [])).
  { intros ws H. split; [|now intros ->].
    destruct ws as [|w ws]; [reflexivity|]. intros E.
    destruct (join_words_nonempty (w :: ws) H ltac:(discriminate)) as (c & t & E' & _).
    congruence. }
  rewrite Hjoin by (apply split_from_words; constructor).
  unfold split. rewrite split_from_nil, Forall_map.
  split; intros H; apply Forall_forall; intros c Hc;
    pose proof (proj1 (Forall_forall _ _) H c Hc) as Hcc; cbv beta in *;
    destruct (clean_char_shape c) as (_ & _ & Hsp); rewrite Hsp in *.
  - now apply orb_prop.
  - now apply orb_true_iff.
Qed.

End NormalizeShape.

(** ** More on the matcher *)

Module MatcherMore.
Import PyStr Pathlib Normalize Matcher FloatOrder MatcherFacts.
Local Open Scope float_scope.

Section WithRatio.

Variable ratio : str -> str -> float.

(** X3: whatever the matcher returns is one of the candidates, and its
    combined score is a number that reaches the threshold. *)
Theorem best_media_match_sound (for_sub : Path) (media_files : list Path) (m : Path)
    (Hm : best_media_match ratio for_sub media_files = Ok (Some m)) :
  In m media_files /\
  (THRESHOLD <=? score_of ratio (normalize_stem (stem for_sub)) m) = true.
Proof.
  destruct (best_media_match_scanned ratio for_sub media_files)
    as (best & score & Inv & E).
  rewrite E in Hm. destruct best as [b|]; [|discriminate].
  destruct (THRESHOLD <=? score) eqn:Hth; [|discriminate].
  injection Hm as ->.
  split; [exact (scanned_in _ _ _ _ _ Inv)|].
  destruct Inv as (-> & _). exact Hth.
Qed.

(** The loop over a concatenation is the loop over the first list followed
    by the loop over the second. *)
Lemma scan_app (s : str) (l1 l2 : list Path) (best : option Path) (score : float) :
  scan ratio s (l1 ++ l2) best score =
  (r <- scan ratio s l1 best score ;; scan ratio s l2 (fst r) (snd r)).
Proof.
  revert best score; induction l1 as [|m l1 IH]; intros best score; [reflexivity|].
  cbn [app scan]. rewrite combined_score_spec. cbn [bind].
  destruct (score <? score_spec ratio s (normalize_stem (stem m))); apply IH.
Qed.

(** X4: a candidate added at the end of the list changes the answer only
    by outscoring the match: when it does not score more than the returned
    candidate the answer is the same, and when it does it is the new answer. *)
Theorem best_media_match_append
    (for_sub : Path) (media_files : list Path) (m x : Path)
    (Hm : best_media_match ratio for_sub media_files = Ok (Some m)) :
  let s := normalize_stem (stem for_sub) in
  best_media_match ratio for_sub (media_files ++ [x]) =
  Ok (Some (if score_of ratio s m <? score_of ratio s x then x else m)).
Proof.
  intros s. unfold best_media_match in *. fold s in Hm |- *.
  rewrite scan_app.
  destruct (scan_from_start ratio s media_files) as (best & score & E & Inv).
  rewrite E in *. cbn [bind fst snd] in *.
  destruct best as [b|]; [|discriminate].
  destruct (THRESHOLD <=? score) eqn:Hth; [|discriminate].
  injection Hm as ->. destruct Inv as (-> & _).
  cbn [scan]. rewrite combined_score_spec. cbn [bind]. fold (score_of ratio s x).
  destruct (score_of ratio s m <? score_of ratio s x) eqn:Hlt; cbn [scan bind].
  - now rewrite (leb_trans _ _ _ Hth (ltb_leb _ _ Hlt)).
  - now rewrite Hth.
Qed.

End WithRatio.

Lemma best_media_match_sound_witness :
  In demo_mp4 [demo_mp4; demo_mkv] /\
  (THRESHOLD <=? score_of (flat_ratio 1) (normalize_stem (stem demo_sub)) demo_mp4) = true.
Proof.
  apply (best_media_match_sound (flat_ratio 1) demo_sub [demo_mp4; demo_mkv] demo_mp4).
  vm_compute. reflexivity.
Defined.

Lemma best_media_match_append_witness :
  best_media_match (flat_ratio 1) demo_sub ([demo_mp4] ++ [demo_mkv]) =
  Ok (Some (if score_of (flat_ratio 1) (normalize_stem (stem demo_sub)) demo_mp4 <?
               score_of (flat_ratio 1) (normalize_stem (stem demo_sub)) demo_mkv
            then demo_mkv else demo_mp4)).
Proof.
  apply (best_media_match_append (flat_ratio 1) demo_sub [demo_mp4] demo_mp4 demo_mkv).
  vm_compute. reflexivity.
Defined.

End MatcherMore.

(** ** More on the batch run *)

Module BatchMore.
Import PyStr Pathlib Matcher Batch PathFacts BatchFacts.

(** X5: the candidates looked up for a directory are exactly the media
    files of the listing that lie in it, in the order of the listing. *)
Theorem candidates_by_directory (all_files : list Path) (k : Path) :
  get (group_media all_files) k [] =
  filter (fun p => suffix_in MEDIA_EXTS p && path_eqb k (parent p)) all_files.
Proof.
  unfold group_media.
  assert (H : forall rest d,
             get (fold_left (fun d p => if suffix_in MEDIA_EXTS p
                                        then setdefault_append d (parent p) p else d)
                            rest d) k [] =
             get d k [] ++
             filter (fun p => suffix_in MEDIA_EXTS p && path_eqb k (parent p)) rest).
  { induction rest as [|p rest IH]; intros d; cbn [fold_left filter].
    - now rewrite app_nil_r.
    - rewrite IH. destruct (suffix_in MEDIA_EXTS p); cbn [andb]; [|reflexivity].
      rewrite get_setdefault_append.
      destruct (path_eqb k (parent p)); [|reflexivity].
      now rewrite <- app_assoc. }
  exact (H all_files []).
Qed.

(** [l] is [d] with some elements left out. *)
Inductive subseq {A : Type} : list A -> list A -> Prop :=
| subseq_nil : subseq [] []
| subseq_skip (x : A) (l d : list A) : subseq l d -> subseq l (d ++ [x])
| subseq_take (x : A) (l d : list A) : subseq l d -> subseq (l ++ [x]) (d ++ [x]).

(** A failure recorded after the aligner ran: neither of the two reasons
    given before a command is built. *)
Definition aligner_failure (entry : Path * str) : bool :=
  negb (str_eqb (snd entry) (py "no media in folder")) &&
  negb (str_eqb (snd entry) (py "no good match")).

Section Run.

Variable cfg : Behavior.
Variable ratio : str -> str -> float.
Variable FS : Type.
Variable exists_ : FS -> Path -> bool.
Variable spawn : list str -> FS -> (Z * str * str) * FS.

(** A property of the subtitles done and the state, kept by every turn,
    holds at the end of the loop. *)
Lemma process_all_invariant (P : list Path -> State FS -> Prop)
    (all_files : list Path) (subs done : list Path) (st : State FS) :
  (forall srt done st st',
     P done st -> turn cfg ratio FS exists_ spawn (group_media all_files) srt st st' ->
     P (done ++ [srt]) st') ->
  P done st ->
  exists st',
    process_all cfg ratio exists_ spawn (group_media all_files) subs st = Ok st' /\
    P (done ++ subs) st'.
Proof.
  intros Hstep. revert done st; induction subs as [|srt subs IH]; intros done st HP.
  - exists st. rewrite app_nil_r. now split.
  - cbn [process_all].
    destruct (process_turn cfg ratio FS exists_ spawn (group_media all_files) srt st)
      as (st1 & -> & Hturn).
    { apply (grouped_named all_files), group_media_grouped. }
    cbn [bind].
    destruct (IH (done ++ [srt]) st1 (Hstep _ _ _ _ HP Hturn)) as (st' & E & HP').
    exists st'. rewrite <- app_assoc in HP'. now split.
Qed.

(** What [main] runs when it reaches the summary. *)
Lemma main_summary (glob_files rglob_files : FS -> Path -> list Path)
    (have_ffsubsync : bool) (folder : option Path) (fs0 : FS) (st : State FS) :
  main cfg ratio exists_ glob_files rglob_files spawn have_ffsubsync folder fs0
  = Ok (Summary st) ->
  exists base,
    folder = Some base /\
    process_all cfg ratio exists_ spawn
      (group_media (gather_files cfg glob_files rglob_files (mkState fs0 [] [] [] []) base))
      (filter (suffix_in SUB_EXTS)
         (gather_files cfg glob_files rglob_files (mkState fs0 [] [] [] []) base))
      (mkState fs0 [] [] [] []) = Ok st.
Proof.
  unfold main. destruct have_ffsubsync; cbn [negb]; [|discriminate].
  destruct folder as [base|]; [|discriminate].
  set (st0 := mkState fs0 [] [] [] []).
  set (all_files := gather_files cfg glob_files rglob_files st0 base).
  destruct (filter (suffix_in SUB_EXTS) all_files) as [|s0 subs] eqn:Esubs; [discriminate|].
  destruct (process_all cfg ratio exists_ spawn (group_media all_files) (s0 :: subs) st0)
    as [st'|e] eqn:E; cbn [bind]; [|discriminate].
  intros [= <-]. exists base. split; [reflexivity|].
  fold st0. fold all_files. rewrite Esubs. exact E.
Qed.

Lemma subseq_nil_l {A : Type} (d : list A) : subseq [] d.
Proof.
  induction d as [|x d IH] using rev_ind; [constructor | now apply subseq_skip].
Qed.

Definition in_order (done : list Path) (st : State FS) : Prop :=
  subseq (map fst (synced st)) done /\
  subseq (map fst (skipped st)) done /\
  subseq (map fst (failed st)) done.


Lemma aligner_failure_error (srt : Path) (code : Z) :
  aligner_failure (srt, py "ffsubsync error (" ++ str_of_int code ++ py ")") = true.
Proof.
  unfold aligner_failure, str_eqb. cbn [snd py list_ascii_of_string app].
  repeat match goal with
         | |- context [list_eq_dec ascii_dec ?a ?b] =>
             destruct (list_eq_dec ascii_dec a b); [discriminate|]
         end.
  reflexivity.
Qed.

Definition accounted (done : list Path) (st : State FS) : Prop :=
  List.length (calls st) =
    List.length (synced st) + List.length (filter aligner_failure (failed st)) /\
  List.length (calls st) + List.length (skipped st) <= List.length done.


Definition only_spawned (st0 : State FS) (done : list Path) (st : State FS) : Prop :=
  exists new,
    calls st = calls st0 ++ new /\
    fs st = fold_left (fun f cmd => snd (spawn cmd f)) new (fs st0).

(** X8: the file system changes through the commands run and through
    nothing else: its state after the loop is the state before, taken through
    the commands the loop added, in their order. *)
Theorem file_system_changes_by_commands_only
    (all_files subs : list Path) (st0 : State FS) :
  exists st new,
    process_all cfg ratio exists_ spawn (group_media all_files) subs st0 = Ok st /\
    calls st = calls st0 ++ new /\
    fs st = fold_left (fun f cmd => snd (spawn cmd f)) new (fs st0).
Proof.
  destruct (process_all_invariant (only_spawned st0) all_files subs [] st0)
    as (st & E & new & Hc & Hf).
  - intros srt done st st' (new & Hc & Hf) Hturn.
    destruct Hturn; unfold only_spawned; cbn [fail skip sync calls fs].
    1-3: now exists new.
    all: exists (new ++ [ffsubsync_cmd m srt (srt_beside m)]);
      rewrite Hc, app_assoc, fold_left_app, <- Hf; cbn [fold_left];
      match goal with H : spawn _ _ = _ |- _ => rewrite H end; now split.
  - exists []. rewrite app_nil_r. now split.
  - now exists st, new.
Qed.

(** X9: with overwriting switched on nothing is ever skipped. *)
Theorem overwrite_never_skips (all_files subs : list Path) (st0 : State FS)
    (Hon : OVERWRITE cfg = true) :
  exists st,
    process_all cfg ratio exists_ spawn (group_media all_files) subs st0 = Ok st /\
    skipped st = skipped st0.
Proof.
  apply (process_all_invariant (fun _ st => skipped st = skipped st0)
           all_files subs [] st0); [|reflexivity].
  intros srt done st st' Hk Hturn.
  destruct Hturn; cbn [fail skip sync skipped]; congruence.
Qed.

(** X10: subtitles whose directory holds no media file of the listing all
    fail with the reason "no media in folder"; no command is run and nothing
    else is recorded. *)
Theorem no_media_all_fail (all_files subs : list Path) (st0 : State FS)
    (Hnone : forall srt p, In srt subs -> In p all_files ->
               suffix_in MEDIA_EXTS p = true -> parent p <> parent srt) :
  process_all cfg ratio exists_ spawn (group_media all_files) subs st0 =
  Ok (mkState (fs st0) (calls st0) (synced st0) (skipped st0)
        (failed st0 ++ map (fun srt => (srt, py "no media in folder")) subs)).
Proof.
  revert st0; induction subs as [|srt subs IH]; intros st0.
  - cbn [process_all map]. rewrite app_nil_r. now destruct st0.
  - cbn [process_all]. unfold process at 1.
    destruct (get (group_media all_files) (parent srt) []) as [|m ms] eqn:E.
    + cbn [bind]. rewrite IH by (intros s p Hs; apply Hnone; now right).
      cbn [fail fs calls synced skipped failed map]. now rewrite <- app_assoc.
    + exfalso.
      destruct (group_media_grouped all_files (parent srt) m) as (Hin & Hmedia & Hpar).
      { rewrite E; now left. }
      exact (Hnone srt m (or_introl eq_refl) Hin Hmedia Hpar).
Qed.

Lemma srt_beside_own (m srt : Path) :
  parent m = parent srt -> stem m = stem srt -> suffix srt = py ".srt" ->
  srt_beside m = srt.
Proof.
  intros Hpar Hstem Hsuf.
  assert (Hname : name srt <> [])
    by (apply suffix_nonempty_name; rewrite Hsuf; discriminate).
  unfold parent in Hpar. injection Hpar as Hroot Hdir.
  unfold srt_beside. rewrite Hroot, Hdir, Hstem, <- Hsuf, <- name_stem_suffix.
  destruct srt as [r ns]. cbn [root names] in *. f_equal.
  unfold name in *. cbn [names] in *.
  destruct ns as [|n ns] using rev_ind; [now destruct Hname|].
  now rewrite removelast_last, last_last.
Qed.

(** X11: with overwriting off, a subtitle that already carries the stem
    of its matched media and the suffix [.srt] is its own output path; being
    on disk it is skipped, and the aligner is not run for it. *)
Theorem own_name_is_skipped (all_files : list Path) (srt m : Path) (st : State FS)
    (Hmatch : best_media_match ratio srt
                (get (group_media all_files) (parent srt) []) = Ok (Some m))
    (Hstem : stem m = stem srt)
    (Hsuffix : suffix srt = py ".srt")
    (Hexists : exists_ (fs st) srt = true)
    (Hoff : OVERWRITE cfg = false) :
  srt_beside m = srt /\
  process cfg ratio exists_ spawn (group_media all_files) srt st =
  Ok (skip st srt (py "exists")).
Proof.
  pose proof (MatcherFacts.best_media_match_in ratio _ _ _ Hmatch) as Hin.
  destruct (group_media_grouped all_files _ _ Hin) as (_ & Hmedia & Hpar).
  pose proof (srt_beside_own m srt Hpar Hstem Hsuffix) as Hown.
  split; [exact Hown|].
  unfold process.
  destruct (get (group_media all_files) (parent srt) []) as [|c cs] eqn:Ec;
    [now destruct Hin|].
  rewrite Hmatch; cbn [bind]. rewrite with_suffix_srt.
  destruct (str_eqb (name m) []) eqn:En;
    [apply str_eqb_eq in En; now destruct (media_has_name m Hmedia)|].
  cbn [bind]. now rewrite Hown, Hexists, Hoff.
Qed.

End Run.

(** A media file with the stem of [demo_sub]. *)
Definition demo_twin : Path := mkPath (py "/") [py "tv"; py "Pilot.mp4"].

Definition overwriting : Behavior := {| RECURSIVE := false; OVERWRITE := true |}.

Lemma overwrite_never_skips_witness :
  exists st,
    process_all overwriting (MatcherFacts.flat_ratio 1) demo_exists demo_spawn
      (group_media [demo_twin]) [MatcherFacts.demo_sub]
      (mkState [MatcherFacts.demo_sub] [] [] [] []) = Ok st /\
    skipped st = [].
Proof.
  apply (overwrite_never_skips overwriting (MatcherFacts.flat_ratio 1) (list Path)
           demo_exists demo_spawn [demo_twin] [MatcherFacts.demo_sub]
           (mkState [MatcherFacts.demo_sub] [] [] [] [])).
  reflexivity.
Defined.

Lemma no_media_all_fail_witness :
  process_all shipped (MatcherFacts.flat_ratio 1) demo_exists demo_spawn
    (group_media [MatcherFacts.demo_sub]) [MatcherFacts.demo_sub]
    (mkState [MatcherFacts.demo_sub] [] [] [] []) =
  Ok (mkState [MatcherFacts.demo_sub] [] [] []
        [(MatcherFacts.demo_sub, py "no media in folder")]).
Proof.
  apply (no_media_all_fail shipped (MatcherFacts.flat_ratio 1) (list Path)
           demo_exists demo_spawn [MatcherFacts.demo_sub] [MatcherFacts.demo_sub]
           (mkState [MatcherFacts.demo_sub] [] [] [] [])).
  intros srt p _ [<- | []] Hmedia. vm_compute in Hmedia. discriminate.
Defined.

Lemma own_name_is_skipped_witness :
  srt_beside demo_twin = MatcherFacts.demo_sub /\
  process shipped (MatcherFacts.flat_ratio 1) demo_exists demo_spawn
    (group_media [MatcherFacts.demo_sub; demo_twin]) MatcherFacts.demo_sub
    (mkState [MatcherFacts.demo_sub; demo_twin] [] [] [] []) =
  Ok (skip (mkState [MatcherFacts.demo_sub; demo_twin] [] [] [] [])
        MatcherFacts.demo_sub (py "exists")).
Proof.
  apply (own_name_is_skipped shipped (MatcherFacts.flat_ratio 1) (list Path)
           demo_exists demo_spawn [MatcherFacts.demo_sub; demo_twin]
           MatcherFacts.demo_sub demo_twin
           (mkState [MatcherFacts.demo_sub; demo_twin] [] [] [] []));
    vm_compute; reflexivity.
Defined.

End BatchMore.

(** ** More on the single-pair run *)

Module SingleMore.
Import PyStr Pathlib Plaintext Single PathFacts SingleFacts.

Section Run.

Variable FS : Type.
Variable read_text : FS -> Path -> option str.
Variable write_text : Path -> str -> FS -> FS.
Variable spawn : list str -> FS -> (Z * str * str) * FS.
Variable which : str -> bool.
Variable aeneas_importable : bool.
Variable executable : str.
Variable mkdtemp : FS -> Path * FS.
Variable rmtree : Path -> FS -> FS.


(** The commands of the fallback: nothing, the transcoder, or the
    transcoder and then the second aligner writing to [out]. *)
Definition fallback_shape (media out : Path) (l : list (list str)) : Prop :=
  l = [] \/
  exists td,
    l = [ffmpeg_cmd media (child td (py "audio.wav"))] \/
    l = [ffmpeg_cmd media (child td (py "audio.wav"));
         aeneas_cmd executable (child td (py "audio.wav")) (child td (py "text.txt")) out].

Lemma run_adds (cmd : list str) (w : World FS) :
  calls (snd (run spawn cmd w)) = calls w ++ [cmd].
Proof. unfold run. now destruct (spawn cmd (fs w)). Qed.

Lemma aeneas_steps_shape (td media subs out : Path) (w : World FS) :
  exists l,
    calls (snd (aeneas_steps read_text write_text spawn which executable
                  td media subs out w)) = calls w ++ l /\
    fallback_shape media out l /\
    (which (py "ffmpeg") = false \/ which (py "ffprobe") = false -> l = []).
Proof.
  unfold aeneas_steps, srt_to_plaintext.
  destruct (read_text (fs w) subs) as [text|];
    [|exists []; rewrite app_nil_r; repeat split; now left].
  set (w1 := mkWorld _ (calls w)).
  unfold have.
  destruct (which (py "ffmpeg")) eqn:E1; cbn [negb orb];
    [|exists []; rewrite app_nil_r; repeat split; now left].
  destruct (which (py "ffprobe")) eqn:E2; cbn [negb];
    [|exists []; rewrite app_nil_r; repeat split; now left].
  fold (ffmpeg_cmd media (child td (py "audio.wav"))).
  pose proof (run_adds (ffmpeg_cmd media (child td (py "audio.wav"))) w1) as Hc2.
  destruct (run spawn (ffmpeg_cmd media (child td (py "audio.wav"))) w1)
    as [[[code o] e] w2]. cbn [snd] in Hc2.
  destruct (negb (code =? 0)%Z).
  - exists [ffmpeg_cmd media (child td (py "audio.wav"))]. cbn [snd].
    split; [exact Hc2|]. split; [right; exists td; now left|].
    intros [H | H]; discriminate.
  - fold (aeneas_cmd executable (child td (py "audio.wav")) (child td (py "text.txt")) out).
    pose proof (run_adds (aeneas_cmd executable (child td (py "audio.wav"))
                            (child td (py "text.txt")) out) w2) as Hc3.
    destruct (run spawn (aeneas_cmd executable (child td (py "audio.wav"))
                           (child td (py "text.txt")) out) w2)
      as [[[code' o'] e'] w3]. cbn [snd] in Hc3.
    exists [ffmpeg_cmd media (child td (py "audio.wav"));
            aeneas_cmd executable (child td (py "audio.wav")) (child td (py "text.txt")) out].
    assert (Hc : calls w3 = calls w ++
                   [ffmpeg_cmd media (child td (py "audio.wav"));
                    aeneas_cmd executable (child td (py "audio.wav"))
                      (child td (py "text.txt")) out]).
    { rewrite Hc3, Hc2. cbn [calls w1]. now rewrite <- app_assoc. }
    destruct (negb (code' =? 0)%Z); cbn [snd];
      (split; [exact Hc|]; split; [right; exists td; now right|];
       intros [H | H]; discriminate).
Qed.

Lemma maybe_align_with_aeneas_shape (media subs out : Path) (w : World FS) :
  exists l,
    calls (snd (maybe_align_with_aeneas read_text write_text spawn which executable
                  mkdtemp rmtree media subs out w)) = calls w ++ l /\
    fallback_shape media out l /\
    (which (py "ffmpeg") = false \/ which (py "ffprobe") = false -> l = []).
Proof.
  unfold maybe_align_with_aeneas.
  destruct (mkdtemp (fs w)) as [td fs1].
  destruct (aeneas_steps_shape td media subs out (mkWorld fs1 (calls w)))
    as (l & Hc & Hshape & Hgate).
  destruct (aeneas_steps read_text write_text spawn which executable td media subs out
              (mkWorld fs1 (calls w))) as [r w'].
  exists l. cbn [snd calls] in *. auto.
Qed.


(** X14: a run executes at most three commands, in a fixed order: the
    primary aligner when it is installed, then, if the primary did not
    succeed, the transcoder and, behind it, the second aligner; both aligners
    write to the path beside the media. *)
Theorem commands_of_a_run (media subs : Path) (w : World FS) :
  exists primary fallback,
    calls (snd (main read_text write_text spawn which aeneas_importable executable
                  mkdtemp rmtree (Some media) (Some subs) w))
    = calls w ++ primary ++ fallback /\
    (primary = [] \/ primary = [ffsubsync_cmd media subs (srt_beside media)]) /\
    fallback_shape media (srt_beside media) fallback /\
    (which (py "ffsubsync") = false -> primary = []) /\
    (aeneas_importable = false -> fallback = []).
Proof.
  assert (Hfb : forall w0,
            exists l,
              calls (snd (fallback read_text write_text spawn which aeneas_importable
                            executable mkdtemp rmtree media subs (srt_beside media) w0))
              = calls w0 ++ l /\
              fallback_shape media (srt_beside media) l /\
              (aeneas_importable = false -> l = [])).
  { intros w0. unfold fallback. destruct aeneas_importable.
    - destruct (maybe_align_with_aeneas_shape media subs (srt_beside media) w0)
        as (l & Hc & Hshape & _).
      exists l.
      destruct (maybe_align_with_aeneas read_text write_text spawn which executable
                  mkdtemp rmtree media subs (srt_beside media) w0) as [[u|e] w'];
        cbn [snd] in *; repeat split; auto; discriminate.
    - exists []. cbn [snd]. rewrite app_nil_r. repeat split; now left. }
  unfold main. rewrite with_suffix_srt.
  destruct (str_eqb (name media) []).
  { exists [], []. cbn [snd app]. rewrite app_nil_r. repeat split; now left. }
  unfold have. destruct (which (py "ffsubsync")).
  - unfold align_with_ffsubsync. fold (ffsubsync_cmd media subs (srt_beside media)).
    pose proof (run_adds (ffsubsync_cmd media subs (srt_beside media)) w) as Hc1.
    destruct (run spawn (ffsubsync_cmd media subs (srt_beside media)) w)
      as [[[code o] e] w1]. cbn [snd] in Hc1.
    destruct (negb (code =? 0)%Z).
    + destruct (Hfb w1) as (l & Hc & Hshape & Hno).
      destruct (fallback read_text write_text spawn which aeneas_importable executable
                  mkdtemp rmtree media subs (srt_beside media) w1) as [o' w2].
      cbn [snd] in *.
      exists [ffsubsync_cmd media subs (srt_beside media)], l.
      rewrite Hc, Hc1, <- app_assoc. repeat split; auto; discriminate.
    + exists [ffsubsync_cmd media subs (srt_beside media)], []. cbn [snd].
      rewrite Hc1, app_nil_r. repeat split; auto; try discriminate. now left.
  - destruct (Hfb w) as (l & Hc & Hshape & Hno).
    destruct (fallback read_text write_text spawn which aeneas_importable executable
                mkdtemp rmtree media subs (srt_beside media) w) as [o' w2].
    cbn [snd] in *. exists [], l. cbn [app]. repeat split; auto.
Qed.

End Run.

(** A concrete environment for one pair: the file system is the list of
    written files, every command succeeds, and only [ffsubsync] is installed. *)
Definition demo_read (files : list (Path * str)) (p : Path) : option str :=
  match find (fun e => path_eqb p (fst e)) files with
  | Some e => Some (snd e)
  | None => None
  end.

Definition demo_write (p : Path) (text : str) (files : list (Path * str))
    : list (Path * str) := (p, text) :: files.

Definition demo_spawn (cmd : list str) (files : list (Path * str))
    : (Z * str * str) * list (Path * str) := ((0%Z, [], []), files).

Definition demo_which (cmd : str) : bool := str_eqb cmd (py "ffsubsync").

Definition demo_mkdtemp (files : list (Path * str)) : Path * list (Path * str) :=
  (mkPath (py "/") [py "tmp"; py "scratch"], files).

Definition demo_rmtree (td : Path) (files : list (Path * str)) : list (Path * str) :=
  filter (fun e => negb (path_eqb (parent (fst e)) td)) files.



End SingleMore.

(** ** More on the stripped text *)

Module PlaintextMore.
Import PyStr Re Plaintext PlaintextSpec ReFacts PyStrFacts PlaintextFacts.

Lemma count_join_lines (lines : list str) :
  Forall (fun l => ~ In LF l) lines ->
  count_occ ascii_dec (join [LF] lines) LF = List.length lines - 1.
Proof.
  induction lines as [|l lines IH]; intros H; [reflexivity|].
  inversion H as [|? ? Hl Hlines]; subst.
  destruct lines as [|l' lines].
  - cbn [join List.length]. now apply count_occ_not_In.
  - rewrite join_cons by discriminate.
    rewrite !count_occ_app, (IH Hlines).
    rewrite (proj1 (count_occ_not_In ascii_dec l LF) Hl).
    cbn [count_occ List.length]. destruct (ascii_dec LF LF); [lia | congruence].
Qed.

(** X15: the text written holds one line feed for each line kept, and a
    single line feed when no line is kept: it is never empty. *)
Theorem one_line_feed_per_kept_line (text : str) :
  count_occ ascii_dec (plaintext text) LF =
  Nat.max 1 (List.length (collect (file_lines text) [])).
Proof.
  unfold plaintext.
  assert (Hlines : Forall (fun l => ~ In LF l) (collect (file_lines text) [])).
  { rewrite collect_spoken. cbn [app]. apply spoken_lines_one_each. }
  rewrite count_occ_app, (count_join_lines _ Hlines).
  cbn [count_occ]. destruct (ascii_dec LF LF); [|congruence].
  destruct (collect (file_lines text) []); cbn [List.length]; lia.
Qed.

(** No tag starts anywhere in [t]. *)
Definition tagless (t : str) : Prop :=
  forall p q, t = p ++ q -> tag_at q = None.

Lemma after_none (x : ascii) (t : str) : ~ In x t -> after x t = None.
Proof.
  induction t as [|c t IH]; [reflexivity|]. intros H. cbn [after].
  destruct (Ascii.eqb_spec c x) as [-> | _]; [destruct H; now left|].
  apply IH. intros Hin. apply H. now right.
Qed.

Lemma after_none_not_in (x : ascii) (t : str) : after x t = None -> ~ In x t.
Proof.
  induction t as [|c t IH]; [auto|]. cbn [after].
  destruct (Ascii.eqb_spec c x) as [-> | Hc]; [discriminate|].
  intros H [E | Hin]; [congruence | now apply IH].
Qed.

Section Deleting.

Variable block_at : str -> option str.
Hypothesis block_at_shorter :
  forall s r, block_at s = Some r -> List.length r < List.length s.
Hypothesis block_at_tail : forall s r, block_at s = Some r -> exists p, s = p ++ r.
Hypothesis block_not_at_close : forall t, block_at (">"%char :: t) = None.

(** Deleting blocks leaves no tag when every tag of the text is the head
    of a block. *)
Lemma delete_all_tagless (s : str) :
  (forall p q, s = p ++ q -> tag_at q <> None -> block_at q <> None) ->
  tagless (delete_all block_at block_at_shorter s).
Proof.
  induction s as [s IH] using (well_founded_induction
                                 (well_founded_ltof _ (@List.length ascii))).
  unfold ltof in IH. intros Hcover.
  destruct s as [|c s].
  - simp delete_all. intros p q E. symmetry in E. apply app_eq_nil in E as [_ ->].
    reflexivity.
  - rewrite delete_all_cons.
    destruct (block_at (c :: s)) as [rest|] eqn:E.
    + destruct (block_at_tail _ _ E) as [p0 Hp0].
      apply IH; [exact (block_at_shorter _ _ E)|].
      intros p q ->. apply (Hcover (p0 ++ p)). now rewrite <- app_assoc.
    + assert (Htail : tagless (delete_all block_at block_at_shorter s)).
      { apply IH; [cbn [List.length]; lia|].
        intros p q ->. now apply (Hcover (c :: p)). }
      assert (Hhere : tag_at (c :: s) = None).
      { destruct (tag_at (c :: s)) eqn:Et; [|reflexivity].
        destruct (Hcover [] (c :: s) eq_refl); [congruence | exact E]. }
      intros [|c' p] q Hq; cbn [app] in Hq.
      * subst q. unfold tag_at in *.
        destruct (Ascii.eqb c "<"); cbn [andb] in *;
          [|now destruct (delete_all block_at block_at_shorter s)].
        destruct s as [|x s']; [now simp delete_all|].
        destruct (Ascii.eqb_spec x ">") as [-> | Hx]; cbn [negb] in *.
        -- rewrite delete_all_cons, block_not_at_close.
           change (Ascii.eqb ">" ">") with true. reflexivity.
        -- assert (Hno : ~ In ">"%char (x :: s')).
           { intros [-> | Hin]; [congruence|].
             exact (after_none_not_in _ _ Hhere Hin). }
           assert (Hno' : ~ In ">"%char (delete_all block_at block_at_shorter (x :: s'))).
           { intros Hin. apply Hno.
             exact (in_delete_all block_at block_at_shorter block_at_tail _ _ Hin). }
           destruct (delete_all block_at block_at_shorter (x :: s')) as [|y d];
             [reflexivity|].
           destruct (negb (Ascii.eqb y ">")); [|reflexivity].
           apply after_none. intros Hin. apply Hno'. now right.
      * injection Hq as _ Hq. exact (Htail p q Hq).
Qed.

End Deleting.

Lemma tagless_tail (c : ascii) (t : str) : tagless (c :: t) -> tagless t.
Proof. intros H p q ->. exact (H (c :: p) q eq_refl). Qed.

Lemma drop_tags_fixed (t : str) : tagless t -> drop_tags t = t.
Proof.
  unfold drop_tags. induction t as [|c t IH]; intros H; [now simp delete_all|].
  rewrite delete_all_cons, (H [] (c :: t) eq_refl).
  f_equal. apply IH. exact (tagless_tail c t H).
Qed.

(** X16: in a line cleaned by the two substitutions no tag starts at any
    position, and the tag substitution applied a second time changes
    nothing. *)
Theorem cleaned_line_holds_no_tag (l : str) :
  (forall p q, sub brace_re (sub tag_re l) = p ++ q -> exec tag_re false q = None) /\
  sub tag_re (sub tag_re l) = sub tag_re l.
Proof.
  assert (Htags : tagless (drop_tags l)).
  { unfold drop_tags. apply delete_all_tagless;
      [apply tag_at_tail | intros [|? ?]; reflexivity | auto]. }
  split.
  - intros p q E. rewrite exec_tag_re. rewrite sub_tag_re, sub_brace_re in E.
    revert p q E. change (tagless (drop_braces (drop_tags l))).
    unfold drop_braces.
    apply delete_all_tagless; [apply brace_at_tail | intros [|? ?]; reflexivity|].
    intros p q E Hq. destruct Hq. exact (Htags p q E).
  - rewrite !sub_tag_re. now apply drop_tags_fixed.
Qed.

End PlaintextMore.
